(** * Shell-like command helpers of crosvm's developer tools

    A shallow embedding of [tools/impl/common.py] (the [Command] class, its
    tokenizer, [batched], [ParallelCommands]) and of
    [jail/seccomp/detect_duplication.py].

    Python text is modelled as [string] whose characters are code points
    below 256.  Python exceptions are values of [exn], and fallible code
    lives in the [Result] monad. *)

From Stdlib Require Import ZArith Lia String Ascii List Permutation DecimalString.
From stdpp Require Import base option list gmap strings.
Import ListNotations.

Local Open Scope string_scope.
Local Open Scope list_scope.

#[local] Arguments String.append !s1 s2 : simpl nomatch.

(** ** Exceptions and results *)

Inductive exn : Type :=
| ZeroDivisionError
| ValueError (msg : string)
| CsvError (msg : string)
| CalledProcessError (returncode : Z) (cmd : string + list string) (output : option string)
| RecursionError
| IndexError
| AttributeError
| OSError (msg : string).

Inductive Result (A : Type) : Type :=
| Ok (a : A)
| Raise (e : exn).
Arguments Ok {A} a.
Arguments Raise {A} e.

Definition bindR {A B} (m : Result A) (k : A -> Result B) : Result B :=
  match m with
  | Ok a => k a
  | Raise e => Raise e
  end.

Notation "x <- m ;;; k" := (bindR m (fun x => k))
  (at level 62, m at next level, right associativity).

(** ** Characters *)

Definition SPACE : ascii := " "%char.
Definition TAB : ascii := "009"%char.
Definition LF : ascii := "010"%char.
Definition CR : ascii := "013"%char.
Definition DQUOTE : ascii := "034"%char.

(** [str.isspace] on code points below 256: the characters Python's
    [str.strip], [str.split] and the regular expression [\s] treat as
    white space. *)
Definition isspace (c : ascii) : bool :=
  let n := nat_of_ascii c in
  (((9 <=? n) && (n <=? 13)) || ((28 <=? n) && (n <=? 32))
   || (n =? 133) || (n =? 160))%nat.

Definition nonempty (s : string) : bool :=
  match s with
  | EmptyString => false
  | String _ _ => true
  end.

(** [s + c]: one character appended. *)
Definition snoc (s : string) (c : ascii) : string := s ++ String c EmptyString.

(** ** [str.strip] and [str.split] *)

Fixpoint lstrip (s : string) : string :=
  match s with
  | EmptyString => EmptyString
  | String c s' => if isspace c then lstrip s' else s
  end.

Fixpoint rstrip (s : string) : string :=
  match s with
  | EmptyString => EmptyString
  | String c s' =>
      match rstrip s' with
      | EmptyString => if isspace c then EmptyString else String c EmptyString
      | t => String c t
      end
  end.

Definition strip (s : string) : string := rstrip (lstrip s).

(** The maximal non-empty runs of characters that are not separators, in
    order; [cur] is the run being read. *)
Fixpoint words_from (sep : ascii -> bool) (cur : string) (s : string) : list string :=
  match s with
  | EmptyString => if nonempty cur then [cur] else []
  | String c s' =>
      if sep c
      then (if nonempty cur then [cur] else []) ++ words_from sep EmptyString s'
      else words_from sep (snoc cur c) s'
  end.

Definition words (sep : ascii -> bool) (s : string) : list string :=
  words_from sep EmptyString s.

(** [s.split()] with no argument. *)
Definition split (s : string) : list string := words isspace s.

(** ** The [csv] reader used by [Command.__shell_like_split]

    [csv.reader(StringIO(value), ...)] with the space as delimiter and the
    double quote as quote character: the state machine of CPython's [_csv]
    module (3.11) for this dialect ([doublequote] on,
    no escape character, [skipinitialspace] off, not [strict]).  The two
    escape states cannot be reached without an escape character and are
    left out. *)

Inductive ParserState : Type :=
| START_RECORD
| START_FIELD
| IN_FIELD
| IN_QUOTED_FIELD
| QUOTE_IN_QUOTED_FIELD
| EAT_CRNL.

Definition ParserState_eqb (a b : ParserState) : bool :=
  match a, b with
  | START_RECORD, START_RECORD
  | START_FIELD, START_FIELD
  | IN_FIELD, IN_FIELD
  | IN_QUOTED_FIELD, IN_QUOTED_FIELD
  | QUOTE_IN_QUOTED_FIELD, QUOTE_IN_QUOTED_FIELD
  | EAT_CRNL, EAT_CRNL => true
  | _, _ => false
  end.

Record ReaderObj : Type := mkReader {
  state : ParserState;
  fields : list string;   (* fields of the record being read *)
  field : string          (* characters of the field being read *)
}.

(** [csv.field_size_limit()], at its default. *)
Definition field_limit : N := 131072.

Definition delimiter : ascii := SPACE.
Definition quotechar : ascii := DQUOTE.

Definition parse_reset : ReaderObj :=
  mkReader START_RECORD [] EmptyString.

Definition set_state (r : ReaderObj) (s : ParserState) : ReaderObj :=
  mkReader s (fields r) (field r).

Definition parse_add_char (r : ReaderObj) (c : ascii) : Result ReaderObj :=
  if (N.of_nat (String.length (field r)) <? field_limit)%N
  then Ok (mkReader (state r) (fields r) (snoc (field r) c))
  else Raise (CsvError "field larger than field limit (131072)").

Definition parse_save_field (r : ReaderObj) : ReaderObj :=
  mkReader (state r) (fields r ++ [field r]) EmptyString.

Definition is_newline (c : ascii) : bool := Ascii.eqb c LF || Ascii.eqb c CR.

(** One step of the machine; [None] is the end-of-line marker the reader
    feeds after the characters of each line. *)
Definition parse_process_char (r : ReaderObj) (oc : option ascii) : Result ReaderObj :=
  let start_field :=
    match oc with
    | None => Ok (set_state (parse_save_field r) START_RECORD)
    | Some c =>
        if is_newline c then Ok (set_state (parse_save_field r) EAT_CRNL)
        else if Ascii.eqb c quotechar then Ok (set_state r IN_QUOTED_FIELD)
        else if Ascii.eqb c delimiter then Ok (set_state (parse_save_field r) START_FIELD)
        else r' <- parse_add_char r c ;;; Ok (set_state r' IN_FIELD)
    end in
  match state r with
  | START_RECORD =>
      match oc with
      | None => Ok r
      | Some c => if is_newline c then Ok (set_state r EAT_CRNL) else start_field
      end
  | START_FIELD => start_field
  | IN_FIELD =>
      match oc with
      | None => Ok (set_state (parse_save_field r) START_RECORD)
      | Some c =>
          if is_newline c then Ok (set_state (parse_save_field r) EAT_CRNL)
          else if Ascii.eqb c delimiter then Ok (set_state (parse_save_field r) START_FIELD)
          else parse_add_char r c
      end
  | IN_QUOTED_FIELD =>
      match oc with
      | None => Ok r
      | Some c =>
          if Ascii.eqb c quotechar then Ok (set_state r QUOTE_IN_QUOTED_FIELD)
          else parse_add_char r c
      end
  | QUOTE_IN_QUOTED_FIELD =>
      match oc with
      | None => Ok (set_state (parse_save_field r) START_RECORD)
      | Some c =>
          if Ascii.eqb c quotechar
          then r' <- parse_add_char r c ;;; Ok (set_state r' IN_QUOTED_FIELD)
          else if Ascii.eqb c delimiter then Ok (set_state (parse_save_field r) START_FIELD)
          else if is_newline c then Ok (set_state (parse_save_field r) EAT_CRNL)
          else r' <- parse_add_char r c ;;; Ok (set_state r' IN_FIELD)
      end
  | EAT_CRNL =>
      match oc with
      | None => Ok (set_state r START_RECORD)
      | Some c =>
          if is_newline c then Ok r
          else Raise (CsvError "new-line character seen in unquoted field - do you need to open the file in universal-newline mode?")
      end
  end.

(** The characters of one line, then the end-of-line marker. *)
Fixpoint process_chars (r : ReaderObj) (line : string) : Result ReaderObj :=
  match line with
  | EmptyString => Ok r
  | String c rest => r' <- parse_process_char r (Some c) ;;; process_chars r' rest
  end.

Definition process_line (r : ReaderObj) (line : string) : Result ReaderObj :=
  r' <- process_chars r line ;;; parse_process_char r' None.

(** Iterating a [StringIO]: the text cut after each line feed, the line
    feed kept; carriage returns do not end a line. *)
Fixpoint StringIO_from (cur : string) (s : string) : list string :=
  match s with
  | EmptyString => if nonempty cur then [cur] else []
  | String c s' =>
      if Ascii.eqb c LF then snoc cur c :: StringIO_from EmptyString s'
      else StringIO_from (snoc cur c) s'
  end.

Definition StringIO (value : string) : list string := StringIO_from EmptyString value.

(** All the records of the reader.  A record ends when a line leaves the
    machine in [START_RECORD]; an open quoted field carries on into the
    next line.  At the end of the input a pending field is saved. *)
Fixpoint reader_records (r : ReaderObj) (lines : list string) : Result (list (list string)) :=
  match lines with
  | [] =>
      if nonempty (field r) || ParserState_eqb (state r) IN_QUOTED_FIELD
      then Ok [fields (parse_save_field r)]
      else Ok []
  | line :: rest =>
      r' <- process_line r line ;;;
      if ParserState_eqb (state r') START_RECORD
      then recs <- reader_records parse_reset rest ;;; Ok (fields r' :: recs)
      else reader_records r' rest
  end.

Definition csv_reader (lines : list string) : Result (list (list string)) :=
  reader_records parse_reset lines.

(** ** [Command.__shell_like_split] *)

Definition shell_like_split (value : string) : Result (list string) :=
  recs <- csv_reader (StringIO value) ;;;
  Ok (List.filter nonempty (List.concat recs)).

(** ** The operating system

    What the module asks of its environment: the file system and the search
    path, the process arguments, and the two entry points of [subprocess].
    Running a process may change the world. *)

Inductive Redirect : Type := INHERIT | PIPE | STDOUT.

Record RunRequest (Stream : Type) : Type := mkRequest {
  rq_args : list string;
  rq_stdout : Redirect;
  rq_stderr : Redirect;
  rq_stdin : option Stream;
  rq_env : gmap string string
}.
Arguments mkRequest {Stream}.
Arguments rq_args {Stream}.
Arguments rq_stdout {Stream}.
Arguments rq_stderr {Stream}.
Arguments rq_stdin {Stream}.
Arguments rq_env {Stream}.

Record CompletedProcess : Type := mkCompleted {
  cp_returncode : Z;
  cp_stdout : option string;
  cp_stderr : option string
}.

Class OS : Type := {
  World : Type;
  Stream : Type;
  environ : World -> gmap string string;
  path_exists : World -> string -> Result bool;     (* Path(s).exists(); may raise OSError *)
  cpu_count : option positive;                      (* os.cpu_count() *)
  which : World -> string -> option string;         (* shutil.which(s) *)
  argv : list string;                               (* sys.argv *)
  repr_str : string -> string;                      (* repr of a str *)
  subprocess_run : RunRequest Stream -> World -> Result CompletedProcess * World;
  subprocess_Popen : RunRequest Stream -> World -> Result Stream * World
}.

(** ** Objects

    A [Command] object lives in a store and is named by its index; the
    attribute assignments of the source are updates of the store. *)

Definition ref : Type := nat.

Record Path : Type := mkPath { path_arg : string }.

Record CommandObj : Type := mkCommand {
  args : list string;
  stdin_cmd : option ref;
  env_vars : gmap string string;
  executable : option Path      (* [None]: the attribute was never set *)
}.

(** One element of an argument list, by the branch of
    [Command.__parse_cmd_args] it takes. *)
Inductive Arg : Type :=
| APath (text : string)       (* a [Path]; [text] is [str(arg)] *)
| AQuoted (value : string)    (* a [QuotedString]; its [value] *)
| ACommand (c : ref)
| ANone
| AFalse
| AOther (text : string).     (* anything else; [text] is [str(arg)] *)

(** ** The duplicate-definition filter ([detect_duplication.py]) *)

Inductive ExitStatus : Type :=
| ExitZero                       (* the script ran to its end *)
| SysExit (message : string)     (* [sys.exit(message)]: message on stderr, status 1 *)
| Uncaught (e : exn).

(** ["%d" % n] for a line index. *)
Definition str_of_nat (n : nat) : string := NilEmpty.string_of_uint (Nat.to_uint n).

Definition startswith (c : ascii) (l : string) : bool :=
  match l with
  | EmptyString => false
  | String a _ => Ascii.eqb a c
  end.

Fixpoint contains (c : ascii) (l : string) : bool :=
  match l with
  | EmptyString => false
  | String a l' => Ascii.eqb a c || contains c l'
  end.

Definition is_definition (l : string) : bool :=
  negb (startswith "#"%char l) && contains ":"%char l.

Definition redefined (syscall : string) (i previous : nat) : string :=
  "syscall " ++ syscall ++ " redefined in L" ++ str_of_nat i
  ++ "(previous definition in L" ++ str_of_nat previous ++ ")".

(** The loop over [enumerate(data)], from index [i] on; the first
    component is what [print] has written, one entry per line. *)
Fixpoint scan (i : nat) (data : list string) (last_seen : gmap string nat)
    : list string * ExitStatus :=
  match data with
  | [] => ([], ExitZero)
  | l :: rest =>
      if is_definition l then
        match split l with
        | [] => ([], Uncaught IndexError)
        | syscall :: _ =>
            match last_seen !! syscall with
            | Some previous => ([], SysExit (redefined syscall i previous))
            | None =>
                let '(out, e) := scan (S i) rest (<[syscall := i]> last_seen) in
                (l :: out, e)
            end
        end
      else
        let '(out, e) := scan (S i) rest last_seen in (l :: out, e)
  end.

(** The script, on the lines read from standard input. *)
Definition detect_duplication (stdin_lines : list string) : list string * ExitStatus :=
  let data := List.map strip stdin_lines in
  scan 0 data ∅.

(** The key a line defines, if it defines one. *)
Definition key_of (l : string) : option string :=
  if is_definition l then head (split l) else None.

(** The index, counted from [i], of the first line that defines [key]. *)
Fixpoint find_key (key : string) (data : list string) (i : nat) : option nat :=
  match data with
  | [] => None
  | l :: rest =>
      if decide (key_of l = Some key) then Some i else find_key key rest (S i)
  end.

(** [last_seen] after the lines [seen]: every key at its line. *)
Definition records (last_seen : gmap string nat) (seen : list string) : Prop :=
  forall key, last_seen !! key = find_key key seen 0.

(** The keys the lines define, in order, one entry per defining line. *)
Definition defined_keys (data : list string) : list (option string) :=
  List.filter (fun o => bool_decide (is_Some o)) (List.map key_of data).

(** ** Fragments of a command line

    A line of text as the tokenizer sees it: fragments joined by single
    spaces, each either a bare word or a span between double quotes. *)
Inductive Item : Type :=
| Plain (w : string)
| Span (w : string).

Definition render (it : Item) : string :=
  match it with
  | Plain w => w
  | Span w => String DQUOTE (w ++ String DQUOTE EmptyString)
  end.

Definition content (it : Item) : string :=
  match it with
  | Plain w => w
  | Span w => w
  end.

Fixpoint all_chars (p : ascii -> bool) (s : string) : bool :=
  match s with
  | EmptyString => true
  | String c s' => p c && all_chars p s'
  end.

(** A character of a bare word: anything but the space, the double quote
    and the two line-end characters. *)
Definition word_char (c : ascii) : bool :=
  negb (Ascii.eqb c delimiter) && negb (Ascii.eqb c quotechar) && negb (is_newline c).

(** A character inside a quoted span: anything but the double quote and
    the line feed. *)
Definition span_char (c : ascii) : bool :=
  negb (Ascii.eqb c quotechar) && negb (Ascii.eqb c LF).

Definition fits (w : string) : bool :=
  (N.of_nat (String.length w) <=? field_limit)%N.

Definition item_ok (it : Item) : bool :=
  match it with
  | Plain w => all_chars word_char w && fits w
  | Span w => all_chars span_char w && fits w
  end.

(** The reader after the characters of some fragments: what the end of
    the line, or a line feed, then does. *)
Definition ends_with (r1 : ReaderObj) (fs : list string) : Prop :=
  parse_process_char r1 None = Ok (mkReader START_RECORD fs EmptyString) /\
  parse_process_char r1 (Some LF) = Ok (mkReader EAT_CRNL fs EmptyString).

Definition not_lf (c : ascii) : bool := negb (Ascii.eqb c LF).

(** The text of one line of fragments, and of several lines. *)
Definition line_text (items : list Item) : string :=
  String.concat " " (List.map render items).

Definition lines_text (lines : list (list Item)) : string :=
  String.concat (String LF EmptyString) (List.map line_text lines).

(** ** More of [common.py] *)

(** [QuotedString.__str__]. *)
Definition QuotedString_str (value : string) : string :=
  String DQUOTE (value ++ String DQUOTE EmptyString).

(** A token free of double quotes and line feeds, and not too long. *)
Definition token_ok (arg : string) : bool :=
  all_chars span_char arg && fits arg.

(** [strip_xssi]: the assertion on the prefix, then [response[5:]]. *)
Inductive Asserted (A : Type) : Type :=
| Passed (a : A)
| AssertionError.
Arguments Passed {A} a.
Arguments AssertionError {A}.

Definition XSSI_PREFIX : string := ")]}'" ++ String LF EmptyString.

Fixpoint startswith_str (prefix s : string) : bool :=
  match prefix, s with
  | EmptyString, _ => true
  | String a p', String b s' => Ascii.eqb a b && startswith_str p' s'
  | String _ _, EmptyString => false
  end.

Fixpoint drop_chars (n : nat) (s : string) : string :=
  match n, s with
  | O, _ => s
  | S n', String _ s' => drop_chars n' s'
  | S _, EmptyString => EmptyString
  end.

Definition strip_xssi (response : string) : Asserted string :=
  if startswith_str XSSI_PREFIX response then Passed (drop_chars 5 response)
  else AssertionError.

(** [str.splitlines] on code points below 256: a line ends at a line
    feed, a carriage return (with the line feed that follows it, if any),
    a vertical tab, a form feed, one of the separators 28 to 30 or the
    next-line character; the line ends are not kept. *)
Definition is_line_boundary (c : ascii) : bool :=
  let n := nat_of_ascii c in
  (((10 <=? n) && (n <=? 13)) || ((28 <=? n) && (n <=? 30)) || (n =? 133))%nat.

Fixpoint splitlines_from (cur : string) (s : string) : list string :=
  match s with
  | EmptyString => if nonempty cur then [cur] else []
  | String c s' =>
      if Ascii.eqb c CR then
        match s' with
        | String c' s'' =>
            if Ascii.eqb c' LF then cur :: splitlines_from EmptyString s''
            else cur :: splitlines_from EmptyString s'
        | EmptyString => cur :: splitlines_from EmptyString s'
        end
      else if is_line_boundary c then cur :: splitlines_from EmptyString s'
      else splitlines_from (snoc cur c) s'
  end.

Definition splitlines (s : string) : list string := splitlines_from EmptyString s.

(** A text whose only line ends are line feeds. *)
Definition breaks_only_lf (s : string) : bool :=
  all_chars (fun c => Ascii.eqb c LF || negb (is_line_boundary c)) s.

(** The last character of a text. *)
Fixpoint last_char (s : string) : option ascii :=
  match s with
  | EmptyString => None
  | String c EmptyString => Some c
  | String _ s' => last_char s'
  end.

(** Items none of which is a command: their tokens do not depend on the
    state of the world. *)
Definition no_commands (items : list Arg) : bool :=
  forallb (fun a => match a with ACommand _ => false | _ => true end) items.

(** The tokens of an item that is not a command, and of a list of such
    items (a command among them counts for nothing here). *)
Definition static_tokens (arg : Arg) : Result (list string) :=
  match arg with
  | APath text => Ok [text]
  | AQuoted value => Ok [value]
  | ACommand _ => Ok []
  | ANone | AFalse => Ok []
  | AOther text => shell_like_split text
  end.

Fixpoint tokens_of (items : list Arg) : Result (list string) :=
  match items with
  | [] => Ok []
  | a :: rest =>
      t <- static_tokens a ;;; ts <- tokens_of rest ;;; Ok (t ++ ts)
  end.

(** Items that are all [None] or [False]. *)
Definition only_sentinels (items : list Arg) : bool :=
  forallb (fun a => match a with ANone | AFalse => true | _ => false end) items.

(** A text with a tab in it. *)
Definition tabbed : string := "a" ++ String TAB "b".

(** ** A small operating system, to run the definitions on

    Every program is on the search path except [nosuchprogram] and names
    of more than 255 characters, on which the file system answers with an
    error; the only file system entry is [/bin/ls]; there are two
    processors; [false] exits with 1 and every other program with 0,
    writing its own arguments. *)
Definition demo_run (rq : RunRequest unit) (w : unit) : Result CompletedProcess * unit :=
  (Ok (mkCompleted
         (match rq_args rq with "false" :: _ => 1%Z | _ => 0%Z end)
         (match rq_stdout rq with PIPE => Some (String.concat " " (rq_args rq)) | _ => None end)
         (match rq_stderr rq with PIPE => Some EmptyString | _ => None end)), w).

(** A name of 300 letters. *)
Definition long_name : string := string_of_list_ascii (repeat "a"%char 300).

Definition demo_os : OS := {|
  World := unit;
  Stream := unit;
  environ := fun _ => ∅;
  path_exists := fun _ s =>
    if (255 <? String.length s)%nat
    then Raise (OSError ("[Errno 36] File name too long: '" ++ s ++ "'"))
    else Ok (String.eqb s "/bin/ls");
  cpu_count := Some 2%positive;
  which := fun _ s =>
    if String.eqb s "nosuchprogram" || (255 <? String.length s)%nat then None
    else Some ("/usr/bin/" ++ s)%string;
  argv := ["tool"];
  repr_str := fun s => ("'" ++ s ++ "'")%string;
  subprocess_run := demo_run;
  subprocess_Popen := fun _ w => (Ok tt, w)
|}.

Section WithOS.
Context `{os : OS}.

Record State : Type := mkState {
  store : list CommandObj;
  world : World;
  printed : list string         (* what [print] wrote, one entry per call *)
}.

Definition M (A : Type) : Type := State -> Result A * State.

Definition ret {A} (a : A) : M A := fun st => (Ok a, st).
Definition raise {A} (e : exn) : M A := fun st => (Raise e, st).
Definition lift {A} (r : Result A) : M A := fun st => (r, st).

Definition bind {A B} (m : M A) (k : A -> M B) : M B :=
  fun st =>
    match m st with
    | (Ok a, st') => k a st'
    | (Raise e, st') => (Raise e, st')
    end.

Notation "x <~ m ;; k" := (bind m (fun x => k))
  (at level 62, m at next level, right associativity).
Notation "m ;;> k" := (bind m (fun _ => k))
  (at level 62, right associativity).

Definition print (s : string) : M unit :=
  fun st => (Ok tt, mkState (store st) (world st) (printed st ++ [s])).

Definition get_world : M World := fun st => (Ok (world st), st).

Definition with_world {A} (f : World -> Result A * World) : M A :=
  fun st => let '(r, w) := f (world st) in (r, mkState (store st) w (printed st)).

(** [self.attr] on a live object. *)
Definition getobj (r : ref) : M CommandObj :=
  fun st =>
    match store st !! r with
    | Some o => (Ok o, st)
    | None => (Raise AttributeError, st)
    end.

Definition setobj (r : ref) (f : CommandObj -> CommandObj) : M unit :=
  fun st =>
    match store st !! r with
    | Some o => (Ok tt, mkState (<[r := f o]> (store st)) (world st) (printed st))
    | None => (Raise AttributeError, st)
    end.

Definition alloc (o : CommandObj) : M ref :=
  fun st => (Ok (length (store st)), mkState (store st ++ [o]) (world st) (printed st)).

Definition set_args (v : list string) (o : CommandObj) : CommandObj :=
  mkCommand v (stdin_cmd o) (env_vars o) (executable o).
Definition set_env_vars (v : gmap string string) (o : CommandObj) : CommandObj :=
  mkCommand (args o) (stdin_cmd o) v (executable o).

Fixpoint mapM {A B} (f : A -> M B) (l : list A) : M (list B) :=
  match l with
  | [] => ret []
  | a :: l' => b <~ f a ;; bs <~ mapM f l' ;; ret (b :: bs)
  end.

(** ** Verbosity flags *)

Definition mem (s : string) (l : list string) : bool :=
  existsb (String.eqb s) l.

Definition very_verbose : bool := mem "-vv" argv || mem "--very-verbose" argv.
Definition verbose : bool := very_verbose || mem "-v" argv || mem "--verbose" argv.

(** ** Pipe chains

    [pipe_chain n st r]: the object [r] followed by its upstream commands,
    nearest first.  The recursions of [__str__], [__repr__] and
    [__stdin_stream] walk this chain; a chain that does not end within [n]
    objects is a cycle, on which Python stops with [RecursionError].  The
    interpreter stops in the same way on a chain without a cycle that is
    deeper than its limit on nested calls (some hundreds of stages); that
    limit is not modelled, and chains are taken to stay below it. *)
Fixpoint pipe_chain (n : nat) (st : list CommandObj) (r : ref) : option (list CommandObj) :=
  match n with
  | O => None
  | S n' =>
      match st !! r with
      | None => None
      | Some o =>
          match stdin_cmd o with
          | None => Some [o]
          | Some up =>
              match pipe_chain n' st up with
              | Some ups => Some (o :: ups)
              | None => None
              end
          end
      end
  end.

Definition get_chain (r : ref) : M (list CommandObj) :=
  fun st =>
    match pipe_chain (length (store st)) (store st) r with
    | Some ch => (Ok ch, st)
    | None => (Raise RecursionError, st)
    end.

Definition join (sep : string) (l : list string) : string := String.concat sep l.

Fixpoint has_space (s : string) : bool :=
  match s with
  | EmptyString => false
  | String c s' => isspace c || has_space s'
  end.

Definition fmt_arg (arg : string) : string :=
  if has_space arg then String DQUOTE arg ++ String DQUOTE EmptyString else arg.

(** [str(self)] and [repr(self)], along the chain of [self]. *)
Fixpoint Command_str (chain : list CommandObj) : string :=
  match chain with
  | [] => EmptyString
  | o :: ups =>
      (match ups with
       | [] => EmptyString
       | _ => Command_str ups ++ " | "
       end) ++ join " " (List.map fmt_arg (args o))
  end.

Fixpoint Command_repr (chain : list CommandObj) : string :=
  match chain with
  | [] => EmptyString
  | o :: ups =>
      "Command(" ++ join ", " (List.map repr_str (args o))
      ++ (match ups with
          | [] => EmptyString
          | _ => ", stdin_cmd=" ++ Command_repr ups
          end) ++ ")"
  end.

Definition debug_print (chain : list CommandObj) : M unit :=
  if verbose
  then print ("$ " ++ (if very_verbose then Command_repr chain else Command_str chain))
  else ret tt.

(** ** Execution *)

Definition request (o : CommandObj) (out err : Redirect) (stdin : option Stream)
    (w : World) : RunRequest Stream :=
  mkRequest (args o) out err stdin (env_vars o ∪ environ w).

(** [stream] and [__stdin_stream], over the chain of the command: the
    upstream process is started first and its output becomes the input. *)
Fixpoint stream_chain (chain : list CommandObj) (err : Redirect) : M (option Stream) :=
  match chain with
  | [] => ret None
  | o :: ups =>
      debug_print chain ;;>
      stdin <~ stream_chain ups PIPE ;;
      w <~ get_world ;;
      p <~ with_world (subprocess_Popen (request o PIPE err stdin w)) ;;
      ret (Some p)
  end.

Definition stdin_stream (chain : list CommandObj) : M (option Stream) :=
  match chain with
  | [] => ret None
  | _ :: ups => stream_chain ups PIPE
  end.

Definition Command_stream (self : ref) (err : Redirect) : M (option Stream) :=
  chain <~ get_chain self ;; stream_chain chain err.

(** The call of [subprocess.run] in [fg]; with [quiet] the output is
    captured, standard error folded into it. *)
Definition fg_run (self : ref) (quiet : bool) : M (list CommandObj * CompletedProcess) :=
  chain <~ get_chain self ;;
  o <~ getobj self ;;
  debug_print chain ;;>
  stdin <~ stdin_stream chain ;;
  w <~ get_world ;;
  result <~ with_world (subprocess_run
              (if quiet then request o PIPE STDOUT stdin w
               else request o INHERIT INHERIT stdin w)) ;;
  ret (chain, result).

Definition Command_fg (self : ref) (quiet check : bool) : M Z :=
  run <~ fg_run self quiet ;;
  let '(chain, result) := run in
  if (cp_returncode result =? 0)%Z then ret (cp_returncode result)
  else
    (if quiet && check && (match cp_stdout result with Some t => nonempty t | None => false end)
     then print (default EmptyString (cp_stdout result)) else ret tt) ;;>
    if check
    then raise (CalledProcessError (cp_returncode result) (inl (Command_str chain)) (cp_stdout result))
    else ret (cp_returncode result).

Definition Command_run (self : ref) (check : bool) (err : Redirect) : M CompletedProcess :=
  chain <~ get_chain self ;;
  o <~ getobj self ;;
  debug_print chain ;;>
  stdin <~ stdin_stream chain ;;
  w <~ get_world ;;
  result <~ with_world (subprocess_run (request o PIPE err stdin w)) ;;
  if check && negb (cp_returncode result =? 0)%Z
  then raise (CalledProcessError (cp_returncode result) (inr (args o)) (cp_stdout result))
  else ret result.

Definition Command_stdout (self : ref) (check : bool) : M string :=
  result <~ Command_run self check INHERIT ;;
  match cp_stdout result with
  | Some t => ret (strip t)
  | None => raise AttributeError
  end.

(** ** The tokenizer *)

Definition parse_cmd_args (arg : Arg) : M (list string) :=
  match arg with
  | APath text => ret [text]
  | AQuoted value => ret [value]
  | ACommand c => out <~ Command_stdout c true ;; lift (shell_like_split out)
  | ANone | AFalse => ret []
  | AOther text => lift (shell_like_split text)
  end.

Definition parse_cmd (items : list Arg) : M (list string) :=
  toks <~ mapM parse_cmd_args items ;; ret (List.concat toks).

(** ** [Command]

    [Command(items..., stdin_cmd, env_vars)].  The object is entered in the
    store once [__init__] has run to its end; when [__init__] raises, no
    object is left behind. *)
Definition program_not_found (executable : string) : exn :=
  ValueError ("Required program " ++ String DQUOTE executable
              ++ String DQUOTE " cannot be found in PATH.").

Definition resolve_executable (executable : string) : M Path :=
  w <~ get_world ;;
  found <~ lift (path_exists w executable) ;;
  if found then ret (mkPath executable)
  else
    match which w executable with
    | Some path =>
        if nonempty path
        then (if very_verbose then print ("Using " ++ executable ++ ": " ++ path) else ret tt) ;;>
             ret (mkPath path)
        else raise (program_not_found executable)
    | None => raise (program_not_found executable)
    end.

Definition Command_new (items : list Arg) (stdin : option ref)
    (env : gmap string string) : M ref :=
  toks <~ parse_cmd items ;;
  exe <~ match toks with
         | [] => ret None
         | executable :: _ => p <~ resolve_executable executable ;; ret (Some p)
         end ;;
  alloc (mkCommand toks stdin env exe).

Definition Command_pipe (self : ref) (items : list Arg) : M ref :=
  match items with
  | [ACommand target] =>
      cmd <~ Command_new [] (Some self) ∅ ;;
      t <~ getobj target ;;
      setobj cmd (set_args (args t)) ;;>
      me <~ getobj self ;;
      setobj cmd (set_env_vars (env_vars me)) ;;>
      ret cmd
  | _ =>
      me <~ getobj self ;;
      Command_new items (Some self) (env_vars me)
  end.

Definition Command_env (self : ref) (key value : string) : M ref :=
  cmd <~ Command_new [] None ∅ ;;
  me <~ getobj self ;;
  setobj cmd (set_args (args me)) ;;>
  me <~ getobj self ;;
  setobj cmd (set_env_vars (<[key := value]> (env_vars me))) ;;>
  ret cmd.

Definition Command_call (self : ref) (items : list Arg) : M ref :=
  cmd <~ Command_new [] None ∅ ;;
  me <~ getobj self ;;
  toks <~ parse_cmd items ;;
  setobj cmd (set_args (args me ++ toks)) ;;>
  me <~ getobj self ;;
  setobj cmd (set_env_vars (env_vars me)) ;;>
  ret cmd.

(** ** [batched]

    [ceil(a / b)] for a list length [a]: Python divides in floating point
    and rounds up.  A list length is below 2^53, so it is a float as it
    stands and the quotient is the nearest float to the exact one.  Its
    rounding error is below [1/|b|], the least distance of a quotient that
    is not an integer from the integers around it: the result is the
    ceiling of the exact quotient, [cdiv], except where a positive
    quotient is no more than 2^-1075 and rounds to [0.0]. *)
Definition cdiv (a b : Z) : Z := (- ((- a) / b))%Z.

Definition ceil_div (a b : Z) : Result Z :=
  if (b =? 0)%Z then Raise ZeroDivisionError
  else if (0 <? a)%Z && (a * 2 ^ 1075 <=? b)%Z then Ok 0%Z
  else Ok (cdiv a b).

(** [range(0, stop, step)]. *)
Definition range0 (stop step : Z) : Result (list Z) :=
  if (step =? 0)%Z then Raise (ValueError "range() arg 3 must not be zero")
  else Ok (List.map (fun i => (Z.of_nat i * step)%Z)
                    (seq 0 (Z.to_nat (cdiv stop step)))).

(** [l[lo:hi]]. *)
Definition clamp (n i : Z) : Z :=
  if (i <? 0)%Z then Z.max 0 (i + n) else Z.min i n.

Definition slice {T} (l : list T) (lo hi : Z) : list T :=
  let n := Z.of_nat (length l) in
  take (Z.to_nat (clamp n hi - clamp n lo)) (drop (Z.to_nat (clamp n lo)) l).

(** A generator: nothing of its body runs before it is iterated. *)
Inductive generator (A : Type) : Type :=
| Generator (body : unit -> Result (list A)).
Arguments Generator {A} body.

(** [list(g)]. *)
Definition list_of {A} (g : generator A) : Result (list A) :=
  match g with Generator body => body tt end.

Definition batched {T} (source : list T) (max_batch_size : Z) : generator (list T) :=
  Generator (fun _ =>
    let source_list := source in
    let len := Z.of_nat (length source_list) in
    batch_count <- ceil_div len max_batch_size ;;;
    batch_size <- ceil_div len batch_count ;;;
    indices <- range0 len batch_size ;;;
    Ok (List.map (fun index => slice source_list index (Z.min (index + batch_size) len))
                 indices)).

(** [list(self.foreach(arguments, batch_size))]: the commands are built
    when the generator is consumed. *)
Definition Command_foreach (self : ref) (arguments : list Arg) (batch_size : Z) : M (list ref) :=
  batches <~ lift (list_of (batched arguments batch_size)) ;;
  mapM (fun batch => Command_call self batch) batches.

(** ** [ParallelCommands]

    [pool.map(f, xs)] cuts [xs] into chunks of [chunksize] consecutive
    elements and hands every chunk to a worker.  The worker applies [f] to
    the elements of its chunk in order and stops at the first call that
    raises; it then delivers the results of the chunk, or that exception,
    to the [MapResult], which writes results at the place of the chunk and
    keeps the first exception delivered.  Once every chunk is delivered,
    [get] returns the list or raises the exception.

    The workers run at the same time.  Here a call of [f] is one step and
    [choose] picks, step by step, the chunk that moves: it runs its next
    element or, when none is left, is delivered.  [choose] ranges over
    every interleaving of the chunks and of their deliveries, those that
    need more workers than the pool has included.  [log] keeps the calls in
    the order they were made, each with the index of its element, the
    state it started in and its result; nothing is computed from it. *)

(** [len(ThreadPool(os.cpu_count())._pool)]: one worker for each
    processor, and one when their number is not known. *)
Definition ThreadPool_processes : nat :=
  match cpu_count with Some n => Pos.to_nat n | None => 1 end.

(** The [chunksize] of [Pool._map_async]. *)
Definition map_chunksize (len processes : nat) : nat :=
  let chunksize := (len / (processes * 4))%nat in
  let extra := (len mod (processes * 4))%nat in
  if (extra =? 0)%nat then chunksize else S chunksize.

(** [Pool._get_tasks]: the chunks, until none is left. *)
Fixpoint get_tasks {A} (it : list A) (size : nat) (fuel : nat) : list (list A) :=
  match fuel with
  | O => []
  | S fuel' =>
      match take size it with
      | [] => []
      | x => x :: get_tasks (drop size it) size fuel'
      end
  end.

(** A chunk in the hands of a worker, which runs [mapstar] on it. *)
Record Task (A B : Type) : Type := mkTask {
  task_i : nat;                  (* the number of the chunk *)
  task_todo : list A;            (* the elements still to come *)
  task_results : list B;         (* the results so far *)
  task_failure : option exn      (* the exception that ended the chunk *)
}.
Arguments mkTask {A B}.
Arguments task_i {A B}.
Arguments task_todo {A B}.
Arguments task_results {A B}.
Arguments task_failure {A B}.

(** What the worker puts on the queue of results. *)
Definition task_result {A B} (t : Task A B) : Result (list B) :=
  match task_failure t with
  | Some e => Raise e
  | None => Ok (task_results t)
  end.

(** [MapResult._set(i, success_result)]: results are written over the
    slice of their chunk as long as no chunk has failed; the first failure
    delivered is kept. *)
Definition mr_set {B} (value : Result (list (option B))) (chunksize i : nat)
    (r : Result (list B)) : Result (list (option B)) :=
  match r, value with
  | Ok result, Ok value =>
      Ok (take (i * chunksize) value ++ List.map Some result
          ++ drop ((i + 1) * chunksize) value)
  | Raise e, Ok _ => Raise e
  | _, Raise e0 => Raise e0
  end.

(** What a [map] leaves: what [get] returns or raises, the state, and
    the calls in the order they were made. *)
Record PoolOutcome (B : Type) : Type := mkOutcome {
  po_result : Result (list (option B));
  po_state : State;
  po_log : list (nat * State * Result B)
}.
Arguments mkOutcome {B}.
Arguments po_result {B}.
Arguments po_state {B}.
Arguments po_log {B}.

Fixpoint pool_run {A B} (f : A -> M B) (choose : nat -> nat) (chunksize : nat) (fuel : nat)
    (active : list (Task A B)) (value : Result (list (option B)))
    (log : list (nat * State * Result B)) (st : State) : PoolOutcome B :=
  match fuel with
  | O => mkOutcome value st log
  | S fuel' =>
      let k := (choose fuel' mod length active)%nat in
      match active !! k with
      | None => mkOutcome value st log
      | Some t =>
          match task_todo t with
          | [] =>
              pool_run f choose chunksize fuel' (delete k active)
                       (mr_set value chunksize (task_i t) (task_result t)) log st
          | x :: rest =>
              let '(r, st') := f x st in
              let t' := match r with
                        | Ok v => mkTask (task_i t) rest (task_results t ++ [v]) None
                        | Raise e => mkTask (task_i t) [] (task_results t) (Some e)
                        end in
              pool_run f choose chunksize fuel' (<[k := t']> active) value
                       (log ++ [(task_i t * chunksize + length (task_results t), st, r)]) st'
          end
      end
  end.

(** [pool.map(f, xs)]. *)
Definition pool_map {A B} (f : A -> M B) (choose : nat -> nat) (xs : list A)
    (st : State) : PoolOutcome B :=
  let chunksize := map_chunksize (length xs) ThreadPool_processes in
  let task_batches := get_tasks xs chunksize (length xs) in
  pool_run f choose chunksize (length task_batches + length xs)
           (imap (fun i x => mkTask i x [] None) task_batches)
           (Ok (replicate (length xs) None)) [] st.

Record ParallelCommands : Type := mkParallel { commands : list ref }.

Definition ParallelCommands_fg (self : ParallelCommands) (choose : nat -> nat)
    (quiet check : bool) (st : State) : PoolOutcome Z :=
  pool_map (fun command => Command_fg command quiet check) choose (commands self) st.

Definition ParallelCommands_stdout (self : ParallelCommands) (choose : nat -> nat)
    (st : State) : PoolOutcome string :=
  pool_map (fun command => Command_stdout command true) choose (commands self) st.

Definition empty_state (w : World) : State := mkState [] w [].

(** The fragment a token is printed as by [fmt_arg]: a span between
    double quotes when it holds white space, a bare word otherwise. *)
Definition token_item (arg : string) : Item :=
  if has_space arg then Span arg else Plain arg.

(** [Command.lines]. *)
Definition Command_lines (self : ref) : M (list string) :=
  out <~ Command_stdout self true ;; ret (splitlines out).

(** A computation that prints nothing. *)
Definition keeps_printed {A} (m : M A) : Prop :=
  forall st, printed (snd (m st)) = printed st.

(** [Command.success]. *)
Definition Command_success (self : ref) : M bool :=
  code <~ Command_fg self true false ;; ret (code =? 0)%Z.

(** A store in which every upstream reference names an earlier object. *)
Definition ordered (st : list CommandObj) : Prop :=
  forall r o up, st !! r = Some o -> stdin_cmd o = Some up -> up < r.

(** A computation that leaves every object as it is and creates none. *)
Definition keeps_store {A} (m : M A) : Prop :=
  forall st, store (snd (m st)) = store st.

(** [log] is a run from [st] to [st']: every call starts where the one
    before it ended, is the call of [f] on the element at its index, and
    has the result that call gives. *)
Fixpoint threaded {A B} (f : A -> M B) (xs : list A) (st : State)
    (log : list (nat * State * Result B)) (st' : State) : Prop :=
  match log with
  | [] => st' = st
  | (i, s, r) :: log' =>
      s = st /\
      exists x, xs !! i = Some x /\ fst (f x s) = r /\
                threaded f xs (snd (f x s)) log' st'
  end.

(** The index of the element a logged call was made on. *)
Definition log_index {B} (entry : nat * State * Result B) : nat := fst (fst entry).

(** The chunk of number [j]. *)
Definition chunk_at {A} (xs : list A) (chunksize j : nat) : list A :=
  take chunksize (drop (j * chunksize) xs).

(** What holds of a pool while chunks are in the hands of workers: the log
    is a run; an undelivered chunk has run a prefix of its elements, which
    gave its results, and has stopped only on a failure; the elements of a
    delivered chunk have their results in place unless a failure was
    delivered; no call follows a failure in its chunk. *)
Record pool_inv {A B} (f : A -> M B) (xs : list A) (cs : nat) (st0 : State)
    (active : list (Task A B)) (value : Result (list (option B)))
    (log : list (nat * State * Result B)) (st : State) : Prop := mkPoolInv {
  inv_threaded : threaded f xs st0 log st;
  inv_nodup_active : NoDup (task_i <$> active);
  inv_nodup_log : NoDup (log_index <$> log);
  inv_active : forall t, t ∈ active ->
    task_i t * cs < length xs /\
    length (task_results t) <= length (chunk_at xs cs (task_i t)) /\
    (forall k v, task_results t !! k = Some v ->
                 exists s, (task_i t * cs + k, s, Ok v) ∈ log) /\
    match task_failure t with
    | None =>
        task_todo t = drop (length (task_results t)) (chunk_at xs cs (task_i t)) /\
        (forall i s r, (i, s, r) ∈ log -> i / cs = task_i t ->
                       i < task_i t * cs + length (task_results t) /\ exists v, r = Ok v)
    | Some e =>
        task_todo t = [] /\
        exists s, (task_i t * cs + length (task_results t), s, Raise e) ∈ log
    end;
  inv_delivered : forall i vs, i < length xs -> i / cs ∉ (task_i <$> active) ->
    value = Ok vs -> exists s v, (i, s, Ok v) ∈ log /\ vs !! i = Some (Some v);
  inv_value :
    match value with
    | Ok vs => length vs = length xs
    | Raise e => exists i s, (i, s, Raise e) ∈ log
    end;
  inv_skip : forall i s e i', (i, s, Raise e) ∈ log -> i' ∈ (log_index <$> log) ->
    i' / cs = i / cs -> i' <= i
}.

(** The steps a pool has left. *)
Definition pool_measure {A B} (active : list (Task A B)) : nat :=
  list_sum (List.map (fun t => S (length (task_todo t))) active).


(** The state once one more object has been created. *)
Definition allocated (st : State) (o : CommandObj) : State :=
  mkState (store st ++ [o]) (world st) (printed st).

End WithOS.

Arguments Generator {A} body.
Arguments mkTask {A B}.
Arguments task_i {A B}.
Arguments task_todo {A B}.
Arguments task_results {A B}.
Arguments task_failure {A B}.
Arguments mkOutcome {os B}.
Arguments po_result {os B}.
Arguments po_state {os B}.
Arguments po_log {os B}.

Notation "x <~ m ;; k" := (bind m (fun x => k))
  (at level 62, m at next level, right associativity).
Notation "m ;;> k" := (bind m (fun _ => k))
  (at level 62, right associativity).

(** States of the small operating system, given their objects. *)
Definition demo_state (objs : list CommandObj) : @State demo_os :=
  @mkState demo_os objs tt [].

Definition ls_cmd : CommandObj := mkCommand ["ls"] None ∅ None.
Definition false_cmd : CommandObj := mkCommand ["false"] None ∅ None.
Definition true_cmd : CommandObj := mkCommand ["true"] None ∅ None.
Definition echo_cmd : CommandObj := mkCommand ["echo"; "abcd"] None {["LANG" := "C"]} None.
Definition wc_cmd : CommandObj := mkCommand ["wc"] None ∅ None.
Definition piped_wc_cmd : CommandObj := mkCommand ["wc"] (Some 0) ∅ None.

(** * Properties *)

Section Properties.
Context `{os : OS}.


(** ** Arithmetic of [batched] *)

Lemma cdiv_spec a b : (0 < b)%Z -> ((cdiv a b - 1) * b < a <= cdiv a b * b)%Z.
Proof.
  intros Hb. unfold cdiv.
  pose proof (Z.div_mod (- a) b ltac:(lia)) as E.
  pose proof (Z.mod_pos_bound (- a) b Hb) as B.
  nia.
Qed.

Lemma cdiv_pos a b : (0 < b)%Z -> (0 < a)%Z -> (1 <= cdiv a b)%Z.
Proof. intros Hb Ha. pose proof (cdiv_spec a b Hb). nia. Qed.

Lemma cdiv_unique a b k : (0 < b)%Z -> ((k - 1) * b < a <= k * b)%Z -> cdiv a b = k.
Proof. intros Hb Hk. pose proof (cdiv_spec a b Hb). nia. Qed.

(** ** Slices of equal width *)

Lemma slice_chunk {T} (l : list T) (b : Z) (i : nat) :
  (1 <= b)%Z -> (Z.of_nat i * b < Z.of_nat (length l))%Z ->
  slice l (Z.of_nat i * b) (Z.min (Z.of_nat i * b + b) (Z.of_nat (length l)))
  = take (Z.to_nat b) (drop (i * Z.to_nat b) l).
Proof.
  intros Hb Hi. unfold slice, clamp.
  set (n := Z.of_nat (length l)) in *.
  assert (0 <= Z.of_nat i * b)%Z by nia.
  destruct (Z.ltb_spec (Z.of_nat i * b) 0); [lia |].
  destruct (Z.ltb_spec (Z.min (Z.of_nat i * b + b) n) 0); [lia |].
  assert (E1 : Z.to_nat (Z.min (Z.of_nat i * b) n) = (i * Z.to_nat b)%nat) by nia.
  rewrite E1.
  destruct (Z.le_gt_cases (Z.of_nat i * b + b) n) as [Hle | Hgt].
  - f_equal. lia.
  - assert (Hlen : length (drop (i * Z.to_nat b) l) = (length l - i * Z.to_nat b)%nat)
      by apply length_drop.
    rewrite !take_ge; [reflexivity | |]; rewrite Hlen; subst n; nia.
Qed.

Lemma concat_chunks {T} (l : list T) (b cnt : nat) :
  concat (List.map (fun i => take b (drop (i * b) l)) (seq 0 cnt)) = take (cnt * b) l.
Proof.
  induction cnt as [| cnt IH].
  - reflexivity.
  - rewrite seq_S, List.map_app, concat_app, IH. simpl.
    rewrite app_nil_r, take_take_drop. f_equal. lia.
Qed.

Lemma ceil_div_exact a b :
  b <> 0%Z -> (a <= 0 \/ b < a * 2 ^ 1075)%Z -> ceil_div a b = Ok (cdiv a b).
Proof.
  intros Hb H. unfold ceil_div.
  destruct (Z.eqb_spec b 0); [contradiction |].
  destruct (Z.ltb_spec 0 a); [| reflexivity].
  destruct (Z.leb_spec (a * 2 ^ 1075) b); [lia | reflexivity].
Qed.

Lemma ceil_div_underflow a b :
  (0 < a)%Z -> (a * 2 ^ 1075 <= b)%Z -> ceil_div a b = Ok 0%Z.
Proof.
  intros Ha H. unfold ceil_div.
  assert (0 < 2 ^ 1075)%Z by (apply Z.pow_pos_nonneg; lia).
  destruct (Z.eqb_spec b 0); [nia |].
  destruct (Z.ltb_spec 0 a); [| lia].
  destruct (Z.leb_spec (a * 2 ^ 1075) b); [reflexivity | lia].
Qed.

Lemma batched_unfold {T} (source : list T) (m : Z) :
  source <> [] -> (1 <= m)%Z ->
  let n := Z.of_nat (length source) in
  (m < n * 2 ^ 1075)%Z ->
  let k := cdiv n m in
  let b := cdiv n k in
  (1 <= k)%Z /\ (1 <= b <= m)%Z /\ ((k - 1) * b < n <= k * b)%Z /\
  list_of (batched source m)
  = Ok (List.map (fun i => take (Z.to_nat b) (drop (i * Z.to_nat b) source))
                 (seq 0 (Z.to_nat k))).
Proof.
  intros Hne Hm n Hsmall k b.
  assert (Hn : (0 < n)%Z) by (subst n; destruct source; [congruence | simpl; lia]).
  assert (Hbig : (1 < 2 ^ 1075)%Z) by (apply Z.pow_gt_1; lia).
  pose proof (cdiv_spec n m ltac:(lia)) as Hk. fold k in Hk.
  assert (Hk1 : (1 <= k)%Z) by nia.
  pose proof (cdiv_spec n k ltac:(lia)) as Hb. fold b in Hb.
  assert (Hb1 : (1 <= b)%Z) by nia.
  assert (Hbm : (b <= m)%Z) by nia.
  assert (Hkb : ((k - 1) * b < n)%Z) by nia.
  assert (Hkn : (k <= n)%Z) by nia.
  assert (Hcnt : cdiv n b = k) by (apply cdiv_unique; lia).
  repeat split; try lia.
  unfold batched, list_of. fold n.
  rewrite (ceil_div_exact n m) by (try right; lia). fold k. cbn [bindR].
  rewrite (ceil_div_exact n k) by (try right; nia). fold b. cbn [bindR].
  unfold range0. destruct (Z.eqb_spec b 0); [lia |]. cbn [bindR].
  rewrite Hcnt, List.map_map. f_equal.
  apply List.map_ext_in. intros i Hi. apply in_seq in Hi.
  apply slice_chunk; [lia |]. fold n. nia.
Qed.



(** C10: iterating [batched] over the empty list divides by a batch count
    of zero, whatever the batch size, and so does consuming [foreach] on an
    empty argument sequence; nothing is built and nothing is run. *)
Theorem batched_empty_raises {T} (max_batch_size : Z) :
  list_of (batched (@nil T) max_batch_size) = Raise ZeroDivisionError /\
  forall self st,
    Command_foreach self [] max_batch_size st = (Raise ZeroDivisionError, st).
Proof.
  assert (E : forall U, list_of (batched (@nil U) max_batch_size) = Raise ZeroDivisionError).
  { intros U. unfold list_of, batched.
    change (Z.of_nat (length (@nil U))) with 0%Z.
    destruct (Z.eq_dec max_batch_size 0%Z) as [-> | Hm]; [reflexivity |].
    rewrite (ceil_div_exact 0%Z max_batch_size Hm) by (left; lia).
    unfold cdiv. rewrite Z.opp_0, Z.div_0_l by assumption. reflexivity. }
  split; [apply E |].
  intros self st. unfold Command_foreach, bind, lift. rewrite E. reflexivity.
Qed.

(** ** The reader on one line *)

Lemma string_app_assoc (a b c : string) : ((a ++ b) ++ c)%string = (a ++ (b ++ c))%string.
Proof. induction a as [| x a IH]; simpl; [reflexivity | now rewrite IH]. Qed.

Lemma string_app_nil_r (a : string) : (a ++ "")%string = a.
Proof. induction a as [| x a IH]; simpl; [reflexivity | now rewrite IH]. Qed.

Lemma string_length_app (a b : string) :
  String.length (a ++ b) = (String.length a + String.length b)%nat.
Proof. induction a as [| x a IH]; simpl; [reflexivity | now rewrite IH]. Qed.

Lemma process_chars_app r a b :
  process_chars r (a ++ b) = (r' <- process_chars r a ;;; process_chars r' b).
Proof.
  revert r. induction a as [| c a IH]; intros r; simpl; [reflexivity |].
  destruct (parse_process_char r (Some c)) as [r1 | e]; simpl; [apply IH | reflexivity].
Qed.

Lemma add_char_ok r c :
  (N.of_nat (String.length (field r)) < field_limit)%N ->
  parse_add_char r c = Ok (mkReader (state r) (fields r) (snoc (field r) c)).
Proof.
  intros H. unfold parse_add_char.
  destruct (N.ltb_spec (N.of_nat (String.length (field r))) field_limit); [reflexivity | lia].
Qed.

Lemma word_char_inv c :
  word_char c = true ->
  Ascii.eqb c delimiter = false /\ Ascii.eqb c quotechar = false /\ is_newline c = false.
Proof.
  unfold word_char. intros H.
  destruct (Ascii.eqb c delimiter), (Ascii.eqb c quotechar), (is_newline c);
    simpl in H; try discriminate; auto.
Qed.

Lemma in_field_chars w fs f :
  all_chars word_char w = true ->
  (N.of_nat (String.length f + String.length w) <= field_limit)%N ->
  process_chars (mkReader IN_FIELD fs f) w = Ok (mkReader IN_FIELD fs (f ++ w)).
Proof.
  revert f. induction w as [| c w IH]; intros f Hw Hlen; simpl.
  - now rewrite string_app_nil_r.
  - simpl in Hw. apply andb_prop in Hw. destruct Hw as [Hc Hw].
    destruct (word_char_inv c Hc) as (Hd & Hq & Hn).
    unfold parse_process_char. simpl. rewrite Hn, Hd.
    rewrite add_char_ok by (simpl in *; lia). simpl.
    rewrite IH; [| assumption |].
    + unfold snoc. now rewrite string_app_assoc.
    + unfold snoc. rewrite string_length_app. simpl in *. lia.
Qed.

Lemma in_quoted_chars w fs f :
  all_chars span_char w = true ->
  (N.of_nat (String.length f + String.length w) <= field_limit)%N ->
  process_chars (mkReader IN_QUOTED_FIELD fs f) w = Ok (mkReader IN_QUOTED_FIELD fs (f ++ w)).
Proof.
  revert f. induction w as [| c w IH]; intros f Hw Hlen; simpl.
  - now rewrite string_app_nil_r.
  - simpl in Hw. apply andb_prop in Hw. destruct Hw as [Hc Hw].
    unfold span_char in Hc. apply andb_prop in Hc. destruct Hc as [Hq _].
    apply negb_true_iff in Hq.
    unfold parse_process_char. simpl. rewrite Hq.
    rewrite add_char_ok by (simpl in *; lia). simpl.
    rewrite IH; [| assumption |].
    + unfold snoc. now rewrite string_app_assoc.
    + unfold snoc. rewrite string_length_app. simpl in *. lia.
Qed.

Lemma process_chars_cons r c w :
  process_chars r (String c w) = (r' <- parse_process_char r (Some c) ;;; process_chars r' w).
Proof. reflexivity. Qed.

Lemma fits_inv w : fits w = true -> (N.of_nat (String.length w) <= field_limit)%N.
Proof. unfold fits. intros H. now apply N.leb_le in H. Qed.

Lemma item_chars (s0 : ParserState) (it : Item) fs :
  s0 = START_RECORD \/ s0 = START_FIELD ->
  item_ok it = true ->
  render it <> EmptyString ->
  exists s1,
    process_chars (mkReader s0 fs EmptyString) (render it) = Ok (mkReader s1 fs (content it))
    /\ (s1 = IN_FIELD \/ s1 = QUOTE_IN_QUOTED_FIELD).
Proof.
  intros Hs Hok Hne. destruct it as [w | w]; unfold render, content in *; simpl in Hok.
  - apply andb_prop in Hok. destruct Hok as [Hw Hfit]. apply fits_inv in Hfit.
    destruct w as [| c w]; [congruence |]. simpl in Hw.
    apply andb_prop in Hw. destruct Hw as [Hc Hw].
    destruct (word_char_inv c Hc) as (Hd & Hq & Hn).
    exists IN_FIELD. split; [| now left].
    assert (E : parse_process_char (mkReader s0 fs EmptyString) (Some c)
                = Ok (mkReader IN_FIELD fs (String c EmptyString))).
    { unfold parse_process_char. destruct Hs as [-> | ->]; simpl; rewrite Hn, Hq, Hd;
        reflexivity. }
    rewrite process_chars_cons, E. simpl. rewrite in_field_chars; [reflexivity | assumption |].
    simpl in *. lia.
  - apply andb_prop in Hok. destruct Hok as [Hw Hfit]. apply fits_inv in Hfit.
    exists QUOTE_IN_QUOTED_FIELD. split; [| now right].
    assert (E : parse_process_char (mkReader s0 fs EmptyString) (Some DQUOTE)
                = Ok (mkReader IN_QUOTED_FIELD fs EmptyString)).
    { destruct Hs as [-> | ->]; reflexivity. }
    rewrite process_chars_cons, E. simpl. rewrite process_chars_app.
    rewrite in_quoted_chars; [| assumption | simpl; lia]. simpl. reflexivity.
Qed.

Lemma item_then_space (s0 : ParserState) (it : Item) fs :
  s0 = START_RECORD \/ s0 = START_FIELD ->
  item_ok it = true ->
  process_chars (mkReader s0 fs EmptyString) (render it ++ " ")
  = Ok (mkReader START_FIELD (fs ++ [content it]) EmptyString).
Proof.
  intros Hs Hok.
  destruct (string_dec (render it) EmptyString) as [E | Hne].
  - assert (content it = EmptyString) as -> by (destruct it; [exact E | discriminate]).
    rewrite E. destruct Hs as [-> | ->]; reflexivity.
  - destruct (item_chars s0 it fs Hs Hok Hne) as (s1 & E & Hs1).
    rewrite process_chars_app, E. simpl. destruct Hs1 as [-> | ->]; reflexivity.
Qed.

Lemma item_end (s0 : ParserState) (it : Item) fs :
  s0 = START_RECORD /\ render it <> EmptyString \/ s0 = START_FIELD ->
  item_ok it = true ->
  exists r1,
    process_chars (mkReader s0 fs EmptyString) (render it) = Ok r1 /\
    ends_with r1 (fs ++ [content it]).
Proof.
  intros Hs Hok.
  destruct (string_dec (render it) EmptyString) as [E | Hne].
  - assert (content it = EmptyString) as -> by (destruct it; [exact E | discriminate]).
    rewrite E. destruct Hs as [[_ H] | ->]; [congruence |].
    eexists. split; [reflexivity |]. split; reflexivity.
  - assert (Hs' : s0 = START_RECORD \/ s0 = START_FIELD) by tauto.
    destruct (item_chars s0 it fs Hs' Hok Hne) as (s1 & E & Hs1).
    eexists. split; [exact E |]. destruct Hs1 as [-> | ->]; split; reflexivity.
Qed.

Lemma join_cons2 (sep a b : string) (l : list string) :
  join sep (a :: b :: l) = (a ++ sep ++ join sep (b :: l))%string.
Proof. reflexivity. Qed.

Lemma items_end_field (items : list Item) fs :
  forallb item_ok items = true -> items <> [] ->
  exists r1,
    process_chars (mkReader START_FIELD fs EmptyString) (join " " (List.map render items)) = Ok r1 /\
    ends_with r1 (fs ++ List.map content items).
Proof.
  revert fs. induction items as [| it rest IH]; intros fs Hok Hne; [congruence |].
  simpl in Hok. apply andb_prop in Hok. destruct Hok as [Hit Hrest].
  destruct rest as [| it2 rest].
  - simpl. now apply item_end; [right |].
  - cbn [List.map]. rewrite join_cons2, <- string_app_assoc.
    rewrite process_chars_app, item_then_space by auto. cbn [bindR].
    destruct (IH (fs ++ [content it]) Hrest ltac:(discriminate)) as (r1 & E & Hend).
    exists r1. split; [exact E |].
    now rewrite <- List.app_assoc in Hend.
Qed.

Lemma items_end_record (items : list Item) :
  forallb item_ok items = true ->
  join " " (List.map render items) <> EmptyString ->
  exists r1,
    process_chars parse_reset (join " " (List.map render items)) = Ok r1 /\
    ends_with r1 (List.map content items).
Proof.
  intros Hok Hne. destruct items as [| it rest]; [now simpl in Hne |].
  simpl in Hok. apply andb_prop in Hok. destruct Hok as [Hit Hrest].
  destruct rest as [| it2 rest].
  - simpl in *. unfold parse_reset.
    destruct (item_end START_RECORD it [] ltac:(left; split; [reflexivity | assumption]) Hit)
      as (r1 & E & Hend).
    exists r1. split; assumption.
  - cbn [List.map]. rewrite join_cons2, <- string_app_assoc. unfold parse_reset.
    rewrite process_chars_app, item_then_space by auto. cbn [bindR app].
    destruct (items_end_field (it2 :: rest) [content it] Hrest ltac:(discriminate))
      as (r1 & E & Hend).
    exists r1. split; assumption.
Qed.

Lemma join_empty (items : list Item) :
  join " " (List.map render items) = EmptyString ->
  List.filter nonempty (List.map content items) = [].
Proof.
  destruct items as [| it rest]; [reflexivity |].
  destruct rest as [| it2 rest].
  - simpl. intros E. destruct it; simpl in *; [now rewrite E | discriminate].
  - cbn [List.map]. rewrite join_cons2. intros E.
    destruct (render it); discriminate.
Qed.

(** A last line, without line feed. *)
Lemma line_last (items : list Item) :
  forallb item_ok items = true ->
  join " " (List.map render items) <> EmptyString ->
  process_line parse_reset (join " " (List.map render items))
  = Ok (mkReader START_RECORD (List.map content items) EmptyString).
Proof.
  intros Hok Hne. destruct (items_end_record items Hok Hne) as (r1 & E & Hend & _).
  unfold process_line. rewrite E. exact Hend.
Qed.

(** A line that ends in a line feed. *)
Lemma line_lf (items : list Item) :
  forallb item_ok items = true ->
  exists fs,
    process_line parse_reset (snoc (join " " (List.map render items)) LF)
    = Ok (mkReader START_RECORD fs EmptyString) /\
    List.filter nonempty fs = List.filter nonempty (List.map content items).
Proof.
  intros Hok.
  destruct (string_dec (join " " (List.map render items)) EmptyString) as [E | Hne].
  - rewrite E. exists []. split; [reflexivity |]. now rewrite join_empty.
  - destruct (items_end_record items Hok Hne) as (r1 & E & _ & Hlf).
    exists (List.map content items). split; [| reflexivity].
    unfold process_line, snoc. rewrite process_chars_app, E. cbn [bindR].
    rewrite process_chars_cons, Hlf. reflexivity.
Qed.

(** ** The reader on several lines *)

Lemma all_chars_app p a b : all_chars p (a ++ b) = all_chars p a && all_chars p b.
Proof.
  induction a as [| c a IH]; simpl; [reflexivity |]. now rewrite IH, andb_assoc.
Qed.

Lemma all_chars_impl (p p' : ascii -> bool) s :
  (forall c, p c = true -> p' c = true) -> all_chars p s = true -> all_chars p' s = true.
Proof.
  intros Himp. induction s as [| c s IH]; simpl; [reflexivity |].
  intros H. apply andb_prop in H. destruct H as [Hc Hs].
  now rewrite (Himp c Hc), IH.
Qed.

Lemma item_no_lf it : item_ok it = true -> all_chars not_lf (render it) = true.
Proof.
  destruct it as [w | w]; simpl; intros H; apply andb_prop in H; destruct H as [H _].
  - apply (all_chars_impl word_char); [| assumption].
    intros c Hc. destruct (word_char_inv c Hc) as (_ & _ & Hn).
    unfold is_newline in Hn. apply orb_false_elim in Hn. unfold not_lf. now rewrite (proj1 Hn).
  - rewrite all_chars_app. simpl. rewrite andb_true_r.
    apply (all_chars_impl span_char); [| assumption].
    intros c Hc. unfold span_char in Hc. apply andb_prop in Hc. now destruct Hc.
Qed.

Lemma line_no_lf items :
  forallb item_ok items = true -> all_chars not_lf (line_text items) = true.
Proof.
  unfold line_text. induction items as [| it rest IH]; [reflexivity |].
  simpl forallb. intros H. apply andb_prop in H. destruct H as [Hit Hrest].
  destruct rest as [| it2 rest].
  - simpl. now apply item_no_lf.
  - cbn [List.map]. fold (join " " (render it :: List.map render (it2 :: rest))).
    rewrite join_cons2, !all_chars_app, item_no_lf by assumption.
    simpl. apply IH, Hrest.
Qed.

Lemma StringIO_from_no_lf s cur rest :
  all_chars not_lf s = true ->
  StringIO_from cur (s ++ rest) = StringIO_from (cur ++ s) rest.
Proof.
  revert cur. induction s as [| c s IH]; intros cur H; simpl.
  - now rewrite string_app_nil_r.
  - simpl in H. apply andb_prop in H. destruct H as [Hc Hs].
    unfold not_lf in Hc. apply negb_true_iff in Hc. rewrite Hc.
    rewrite IH by assumption. unfold snoc. now rewrite string_app_assoc.
Qed.

Lemma StringIO_from_single s cur :
  all_chars not_lf s = true ->
  StringIO_from cur s = if nonempty (cur ++ s) then [(cur ++ s)%string] else [].
Proof.
  intros H. pose proof (StringIO_from_no_lf s cur EmptyString H) as E.
  rewrite string_app_nil_r in E. rewrite E. reflexivity.
Qed.

Lemma StringIO_cons_line t rest :
  all_chars not_lf t = true ->
  StringIO_from EmptyString (t ++ String LF rest)
  = snoc t LF :: StringIO_from EmptyString rest.
Proof.
  intros H. rewrite StringIO_from_no_lf by assumption.
  cbn [String.append StringIO_from]. now rewrite Ascii.eqb_refl.
Qed.

Lemma filter_concat_cons (fs : list string) recs :
  List.filter nonempty (List.concat (fs :: recs))
  = List.filter nonempty fs ++ List.filter nonempty (List.concat recs).
Proof. simpl. apply List.filter_app. Qed.

Lemma reader_lines (lines : list (list Item)) :
  forallb (forallb item_ok) lines = true ->
  exists recs,
    csv_reader (StringIO (lines_text lines)) = Ok recs /\
    List.filter nonempty (List.concat recs)
    = List.filter nonempty (List.map content (List.concat lines)).
Proof.
  unfold lines_text, csv_reader, StringIO.
  induction lines as [| l rest IH]; intros Hok.
  - exists []. split; reflexivity.
  - simpl in Hok. apply andb_prop in Hok. destruct Hok as [Hl Hrest].
    pose proof (line_no_lf l Hl) as Hnolf.
    destruct rest as [| l2 rest].
    + cbn [List.map String.concat List.concat]. rewrite app_nil_r.
      rewrite StringIO_from_single by assumption. cbn [String.append].
      destruct (string_dec (line_text l) EmptyString) as [E | Hne].
      * rewrite E. exists []. split; [reflexivity |].
        unfold line_text in E. now rewrite (join_empty l E).
      * assert (Hn : nonempty (line_text l) = true)
          by (destruct (line_text l); [congruence | reflexivity]).
        rewrite Hn. exists [List.map content l]. split.
        -- cbn [reader_records]. unfold line_text. rewrite line_last by assumption.
           reflexivity.
        -- simpl. now rewrite app_nil_r.
    + destruct (IH Hrest) as (recs & E & Hf).
      assert (Etext : String.concat (String LF EmptyString)
                        (List.map line_text (l :: l2 :: rest))
                      = (line_text l
                         ++ String LF (String.concat (String LF EmptyString)
                                         (List.map line_text (l2 :: rest))))%string)
        by reflexivity.
      rewrite Etext, StringIO_cons_line by assumption.
      destruct (line_lf l Hl) as (fs & Eline & Hfs).
      change (process_line parse_reset (snoc (line_text l) LF)
              = Ok (mkReader START_RECORD fs EmptyString)) in Eline.
      exists (fs :: recs). split.
      * cbn [reader_records]. rewrite Eline. cbn [bindR state ParserState_eqb].
        rewrite E. reflexivity.
      * rewrite filter_concat_cons, Hfs, Hf.
        cbn [List.concat]. now rewrite !List.map_app, !List.filter_app.
Qed.

(** On lines of fragments the tokenizer returns the non-empty fragments,
    in order, quoted spans without their quotes. *)
Lemma shell_like_split_lines (lines : list (list Item)) :
  forallb (forallb item_ok) lines = true ->
  shell_like_split (lines_text lines)
  = Ok (List.filter nonempty (List.map content (List.concat lines))).
Proof.
  intros Hok. destruct (reader_lines lines Hok) as (recs & E & Hf).
  unfold shell_like_split. rewrite E. simpl. now rewrite Hf.
Qed.

Lemma shell_like_split_nonempty text toks :
  shell_like_split text = Ok toks -> Forall (fun t => t <> EmptyString) toks.
Proof.
  unfold shell_like_split. destruct (csv_reader (StringIO text)) as [recs | e]; simpl;
    [| discriminate].
  intros [= <-]. apply Forall_forall. intros t Hin.
  apply list_elem_of_In, List.filter_In in Hin. destruct Hin as [_ Hn].
  intros ->. discriminate.
Qed.

(** ** What leaves the store alone *)

Lemma keeps_ret {A} (a : A) : keeps_store (ret a).
Proof. intros st. reflexivity. Qed.

Lemma keeps_raise {A} (e : exn) : keeps_store (raise (A := A) e).
Proof. intros st. reflexivity. Qed.

Lemma keeps_lift {A} (r : Result A) : keeps_store (lift r).
Proof. intros st. reflexivity. Qed.

Lemma keeps_print s : keeps_store (print s).
Proof. intros st. reflexivity. Qed.

Lemma keeps_get_world : keeps_store get_world.
Proof. intros st. reflexivity. Qed.

Lemma keeps_with_world {A} (f : World -> Result A * World) : keeps_store (with_world f).
Proof. intros st. unfold with_world. destruct (f (world st)). reflexivity. Qed.

Lemma keeps_getobj r : keeps_store (getobj r).
Proof. intros st. unfold getobj. destruct (store st !! r); reflexivity. Qed.

Lemma keeps_get_chain r : keeps_store (get_chain r).
Proof.
  intros st. unfold get_chain.
  destruct (pipe_chain (length (store st)) (store st) r); reflexivity.
Qed.

Lemma keeps_bind {A B} (m : M A) (k : A -> M B) :
  keeps_store m -> (forall a, keeps_store (k a)) -> keeps_store (bind m k).
Proof.
  intros Hm Hk st. unfold bind. specialize (Hm st).
  destruct (m st) as [[a | e] st1]; simpl in *; [| assumption].
  now rewrite Hk.
Qed.

Lemma keeps_mapM {A B} (f : A -> M B) (l : list A) :
  (forall a, keeps_store (f a)) -> keeps_store (mapM f l).
Proof.
  intros Hf. induction l as [| a l IH]; simpl.
  - apply keeps_ret.
  - apply keeps_bind; [apply Hf |]. intros b.
    apply keeps_bind; [apply IH |]. intros bs. apply keeps_ret.
Qed.

Create HintDb keeps.

#[local] Hint Resolve keeps_ret keeps_raise keeps_lift keeps_print keeps_get_world
  keeps_with_world keeps_getobj keeps_get_chain : keeps.

Ltac keeps :=
  repeat match goal with
    | |- keeps_store (bind _ _) => apply keeps_bind; [| intros ?]
    | |- keeps_store (if ?b then _ else _) => destruct b
    | |- keeps_store (match ?x with _ => _ end) => destruct x
    | |- keeps_store _ => solve [auto with keeps]
    end.

Lemma keeps_debug_print chain : keeps_store (debug_print chain).
Proof. unfold debug_print. keeps. Qed.
#[local] Hint Resolve keeps_debug_print : keeps.

Lemma keeps_stream_chain chain err : keeps_store (stream_chain chain err).
Proof.
  revert err. induction chain as [| o ups IH]; intros err; simpl; keeps.
Qed.
#[local] Hint Resolve keeps_stream_chain : keeps.

Lemma keeps_stdin_stream chain : keeps_store (stdin_stream chain).
Proof. unfold stdin_stream. keeps. Qed.
#[local] Hint Resolve keeps_stdin_stream : keeps.

Lemma keeps_fg_run self quiet : keeps_store (fg_run self quiet).
Proof. unfold fg_run. keeps. Qed.
#[local] Hint Resolve keeps_fg_run : keeps.

Lemma keeps_Command_fg self quiet check : keeps_store (Command_fg self quiet check).
Proof. unfold Command_fg. keeps. Qed.

Lemma keeps_Command_run self check err : keeps_store (Command_run self check err).
Proof. unfold Command_run. keeps. Qed.
#[local] Hint Resolve keeps_Command_run : keeps.

Lemma keeps_Command_stdout self check : keeps_store (Command_stdout self check).
Proof. unfold Command_stdout. keeps. Qed.
#[local] Hint Resolve keeps_Command_stdout : keeps.

Lemma keeps_parse_cmd_args arg : keeps_store (parse_cmd_args arg).
Proof. unfold parse_cmd_args. keeps. Qed.

Lemma keeps_parse_cmd items : keeps_store (parse_cmd items).
Proof.
  unfold parse_cmd. apply keeps_bind; [| intros; apply keeps_ret].
  apply keeps_mapM, keeps_parse_cmd_args.
Qed.

Lemma keeps_resolve_executable executable : keeps_store (resolve_executable executable).
Proof. unfold resolve_executable. keeps. Qed.

(** ** The tokenizer *)

(** C1, as the code has it: the items are tokenized from left to right
    and their tokens concatenated; a path is one token, its text; a quoted
    string is one token, its value; [None] and [False] give no token; any
    other value that is not a command is split by the reader on its text:
    no token of such a split is empty, and on lines of fragments joined by
    single spaces (bare words free of spaces, double quotes and line ends,
    or spans between double quotes) the tokens are the non-empty fragments
    in order, the spans without their quotes.  Only the space and the line
    feed separate fragments; a tab stays inside its word. *)
Theorem tokenize_spec :
  (forall st, parse_cmd [] st = (Ok [], st)) /\
  (forall a rest st,
      parse_cmd (a :: rest) st
      = (t <~ parse_cmd_args a ;; ts <~ parse_cmd rest ;; ret (t ++ ts)) st) /\
  (forall text st, parse_cmd_args (APath text) st = (Ok [text], st)) /\
  (forall value st, parse_cmd_args (AQuoted value) st = (Ok [value], st)) /\
  (forall st, parse_cmd_args ANone st = (Ok [], st)) /\
  (forall st, parse_cmd_args AFalse st = (Ok [], st)) /\
  (forall text st, parse_cmd_args (AOther text) st = (shell_like_split text, st)) /\
  (forall text toks,
      shell_like_split text = Ok toks -> Forall (fun t => t <> EmptyString) toks) /\
  (forall lines,
      forallb (forallb item_ok) lines = true ->
      shell_like_split (lines_text lines)
      = Ok (List.filter nonempty (List.map content (List.concat lines)))).
Proof.
  repeat split; try reflexivity.
  - intros a rest st. unfold parse_cmd, bind, ret. simpl. unfold bind.
    destruct (parse_cmd_args a st) as [[t | e] st1]; [| reflexivity].
    destruct (mapM parse_cmd_args rest st1) as [[ts | e] st2]; reflexivity.
  - apply shell_like_split_nonempty.
  - apply shell_like_split_lines.
Qed.

(** ** Construction *)

Lemma Command_new_empty stdin env st :
  Command_new [] stdin env st
  = (Ok (length (store st)), allocated st (mkCommand [] stdin env None)).
Proof. reflexivity. Qed.

(** C2, as the code has it: when the items tokenize to a non-empty
    vector, the constructor resolves the executable itself.  It first asks
    the file system whether the first token names an entry; an error of
    the file system on that question (a name that is too long, a directory
    that may not be searched) leaves the constructor as it is.  Otherwise
    the executable is the first token when it names an entry, else the
    match on the search path, and else the constructor raises the
    [ValueError] whose message names the first token between double
    quotes.  On either failure no command is created. *)
Theorem Command_new_resolves items stdin env st t ts st1 :
  parse_cmd items st = (Ok (t :: ts), st1) ->
  (forall e,
      path_exists (world st1) t = Raise e ->
      Command_new items stdin env st = (Raise e, st1) /\
      store st1 = store st) /\
  (path_exists (world st1) t = Ok true ->
   Command_new items stdin env st
   = (Ok (length (store st)),
      allocated st1 (mkCommand (t :: ts) stdin env (Some (mkPath t))))) /\
  (forall p,
      path_exists (world st1) t = Ok false ->
      which (world st1) t = Some p -> p <> EmptyString ->
      exists st',
        Command_new items stdin env st = (Ok (length (store st)), st') /\
        store st' = store st ++ [mkCommand (t :: ts) stdin env (Some (mkPath p))] /\
        world st' = world st1) /\
  (path_exists (world st1) t = Ok false ->
   which (world st1) t = None \/ which (world st1) t = Some EmptyString ->
   Command_new items stdin env st
   = (Raise (ValueError ("Required program " ++ String DQUOTE t
                         ++ String DQUOTE " cannot be found in PATH.")), st1) /\
   store st1 = store st).
Proof.
  intros Hparse.
  pose proof (keeps_parse_cmd items st) as Hstore. rewrite Hparse in Hstore. simpl in Hstore.
  split; [| split; [| split]].
  - intros e Hex. split; [| assumption]. unfold Command_new, bind. rewrite Hparse.
    unfold resolve_executable, bind, get_world, lift. now rewrite Hex.
  - intros Hex. unfold Command_new, bind. rewrite Hparse.
    unfold resolve_executable, bind, get_world, lift. rewrite Hex.
    unfold ret, alloc, allocated. now rewrite Hstore.
  - intros p Hex Hwhich Hp. unfold Command_new, bind. rewrite Hparse.
    unfold resolve_executable, bind, get_world, lift. rewrite Hex, Hwhich.
    assert (Hn : nonempty p = true) by (destruct p; [congruence | reflexivity]).
    rewrite Hn. destruct very_verbose; simpl; unfold alloc; simpl; rewrite Hstore;
      eexists; (split; [reflexivity |]); split; reflexivity.
  - intros Hex Hwhich. split; [| assumption]. unfold Command_new, bind. rewrite Hparse.
    unfold resolve_executable, bind, get_world, lift. rewrite Hex.
    destruct Hwhich as [-> | ->]; reflexivity.
Qed.

(** Whatever the constructor does, the objects that exist stay as they
    are; at most one object, the new command, is added. *)
Lemma Command_new_store items stdin env st :
  match Command_new items stdin env st with
  | (Ok c, st') =>
      c = length (store st) /\
      exists toks exe, store st' = store st ++ [mkCommand toks stdin env exe]
  | (Raise _, st') => store st' = store st
  end.
Proof.
  unfold Command_new, bind.
  pose proof (keeps_parse_cmd items st) as Hp.
  destruct (parse_cmd items st) as [[toks | e] st1]; simpl in Hp; [| assumption].
  destruct toks as [| t ts].
  - simpl. rewrite Hp. split; [reflexivity |]. now exists [], None.
  - pose proof (keeps_resolve_executable t st1) as Hr.
    destruct (resolve_executable t st1) as [[p | e] st2]; simpl in Hr |- *.
    + rewrite Hr, Hp. split; [reflexivity |]. now exists (t :: ts), (Some p).
    + congruence.
Qed.

(** ** Reading and writing the new object *)

Lemma getobj_old st o r obj :
  store st !! r = Some obj -> getobj r (allocated st o) = (Ok obj, allocated st o).
Proof.
  intros H. unfold getobj, allocated. simpl. now rewrite (lookup_app_l_Some _ _ _ _ H).
Qed.

Lemma setobj_new st o f :
  setobj (length (store st)) f (allocated st o) = (Ok tt, allocated st (f o)).
Proof.
  unfold setobj, allocated. simpl. rewrite list_lookup_middle by reflexivity.
  f_equal. f_equal.
  rewrite <- (Nat.add_0_r (length (store st))). now rewrite insert_app_r.
Qed.

Lemma keeps_allocated {A} (m : M A) st o r st1 :
  keeps_store m -> m (allocated st o) = (r, st1) ->
  st1 = allocated (mkState (store st) (world st1) (printed st1)) o.
Proof.
  intros Hk E. specialize (Hk (allocated st o)). rewrite E in Hk. simpl in Hk.
  destruct st1 as [s w p]. simpl in *. unfold allocated. simpl. now rewrite Hk.
Qed.

(** ** Foreground execution *)

Lemma fg_run_chain self quiet st chain result st1 :
  fg_run self quiet st = (Ok (chain, result), st1) ->
  pipe_chain (length (store st)) (store st) self = Some chain.
Proof.
  unfold fg_run, bind, get_chain.
  destruct (pipe_chain (length (store st)) (store st) self) as [ch |]; [| discriminate].
  destruct (getobj self st) as [[o | e] st2]; [| discriminate].
  destruct (debug_print ch st2) as [[u | e] st3]; [| discriminate].
  destruct (stdin_stream ch st3) as [[i | e] st4]; [| discriminate].
  unfold get_world, with_world, ret.
  destruct (subprocess_run _ (world st4)) as [[res | e] w]; [| discriminate].
  intros [= <- _ _]. reflexivity.
Qed.

(** C4: once the process of [fg] has returned with an exit code: with
    [check] and a non-zero code the call raises the error that carries the
    code, the description of the command (its pipe chain, upstream first)
    and the output the run captured; without [check] it returns the code,
    zero or not; and with the code zero it returns 0 and raises nothing. *)
Theorem fg_exit_code self quiet check st chain result st1 :
  fg_run self quiet st = (Ok (chain, result), st1) ->
  pipe_chain (length (store st)) (store st) self = Some chain /\
  (check = true -> cp_returncode result <> 0%Z ->
   exists st',
     Command_fg self quiet check st
     = (Raise (CalledProcessError (cp_returncode result) (inl (Command_str chain))
                                  (cp_stdout result)), st')) /\
  (check = false -> Command_fg self quiet check st = (Ok (cp_returncode result), st1)) /\
  (cp_returncode result = 0%Z -> Command_fg self quiet check st = (Ok 0%Z, st1)).
Proof.
  intros Hrun. split; [eapply fg_run_chain; eassumption |].
  unfold Command_fg, bind. rewrite Hrun.
  split; [| split].
  - intros -> Hrc. destruct (Z.eqb_spec (cp_returncode result) 0); [contradiction |].
    destruct (quiet && true && _); simpl; eexists; reflexivity.
  - intros ->. destruct (Z.eqb_spec (cp_returncode result) 0); [reflexivity |].
    rewrite andb_false_r. reflexivity.
  - intros E. rewrite E. reflexivity.
Qed.

(** ** Derived commands *)

(** C5, as the code has it: piping [r] into the command [t] gives a new
    command with the tokens of [t], the environment overrides of the
    receiver [r] (not those of [t]) and [r] as its upstream; with any
    other arguments the result is the command constructed from them with
    [r] as upstream and the overrides of [r]; in both cases no object that
    existed is changed. *)
Theorem pipe_spec st r t robj tobj :
  store st !! r = Some robj -> store st !! t = Some tobj ->
  Command_pipe r [ACommand t] st
  = (Ok (length (store st)),
     allocated st (mkCommand (args tobj) (Some r) (env_vars robj) None)) /\
  (forall items,
      (forall c, items <> [ACommand c]) ->
      Command_pipe r items st = Command_new items (Some r) (env_vars robj) st /\
      match Command_pipe r items st with
      | (Ok c, st') =>
          c = length (store st) /\
          exists toks exe,
            store st' = store st ++ [mkCommand toks (Some r) (env_vars robj) exe]
      | (Raise _, st') => store st' = store st
      end).
Proof.
  intros Hr Ht. split.
  - unfold Command_pipe, bind. rewrite Command_new_empty.
    rewrite (getobj_old _ _ _ _ Ht), setobj_new, (getobj_old _ _ _ _ Hr), setobj_new.
    reflexivity.
  - intros items Hne.
    assert (E : Command_pipe r items st = Command_new items (Some r) (env_vars robj) st).
    { unfold Command_pipe.
      assert (G : (me <~ getobj r ;; Command_new items (Some r) (env_vars me)) st
                  = Command_new items (Some r) (env_vars robj) st).
      { unfold bind, getobj. now rewrite Hr. }
      destruct items as [| a rest]; [exact G |].
      destruct a as [? | ? | target | | | ?]; try exact G.
      destruct rest as [| b rest]; [| exact G].
      exfalso. now apply (Hne target). }
    split; [exact E |]. rewrite E. apply Command_new_store.
Qed.

(** C6, what [env] does: the new command has the tokens of [c] and the
    overrides of [c] with the new key set; its upstream is empty whatever
    the upstream of [c] was; no object that existed is changed. *)
Theorem env_spec st c obj key value :
  store st !! c = Some obj ->
  Command_env c key value st
  = (Ok (length (store st)),
     allocated st (mkCommand (args obj) None (<[key := value]> (env_vars obj)) None)).
Proof.
  intros Hc. unfold Command_env, bind. rewrite Command_new_empty.
  rewrite (getobj_old _ _ _ _ Hc), setobj_new, (getobj_old _ _ _ _ Hc), setobj_new.
  reflexivity.
Qed.

(** C7: [c(moreItems...)] gives a new command whose tokens are those of
    [c] followed by the tokens of the items, with the overrides of [c];
    no object that existed, [c] included, is changed. *)
Theorem call_spec st c obj items toks st1 :
  store st !! c = Some obj ->
  parse_cmd items (allocated st (mkCommand [] None ∅ None)) = (Ok toks, st1) ->
  exists st',
    Command_call c items st = (Ok (length (store st)), st') /\
    store st' = store st ++ [mkCommand (args obj ++ toks) None (env_vars obj) None] /\
    store st' !! c = Some obj /\
    world st' = world st1 /\ printed st' = printed st1.
Proof.
  intros Hc Hparse. unfold Command_call, bind. rewrite Command_new_empty.
  rewrite (getobj_old _ _ _ _ Hc), Hparse.
  rewrite (keeps_allocated _ _ _ _ _ (keeps_parse_cmd items) Hparse).
  set (st2 := mkState (store st) (world st1) (printed st1)).
  change (length (store st)) with (length (store st2)).
  assert (Hc2 : store st2 !! c = Some obj) by exact Hc.
  rewrite setobj_new, (getobj_old _ _ _ _ Hc2), setobj_new.
  eexists. split; [reflexivity |]. simpl.
  split; [reflexivity |]. split; [| split; reflexivity].
  now apply lookup_app_l_Some.
Qed.

(** ** The pool *)

Lemma threaded_snoc {A B} (f : A -> M B) xs st0 log st i x :
  threaded f xs st0 log st -> xs !! i = Some x ->
  threaded f xs st0 (log ++ [(i, st, fst (f x st))]) (snd (f x st)).
Proof.
  revert st0. induction log as [| [[i0 s0] r0] log IH]; intros st0 H Hx; simpl in *.
  - subst st. split; [reflexivity |]. exists x. auto.
  - destruct H as (-> & x0 & Hx0 & Hr & H). split; [reflexivity |].
    exists x0. repeat split; auto.
Qed.

Lemma threaded_elem {A B} (f : A -> M B) xs st0 log st i s r :
  threaded f xs st0 log st -> (i, s, r) ∈ log ->
  exists x, xs !! i = Some x /\ fst (f x s) = r.
Proof.
  revert st0. induction log as [| [[i0 s0] r0] log IH]; intros st0 H Hin; simpl in *.
  - inversion Hin.
  - destruct H as (-> & x0 & Hx0 & Hr & H).
    apply elem_of_cons in Hin. destruct Hin as [E | Hin].
    + injection E as -> -> ->. eauto.
    + eauto.
Qed.

Lemma threaded_store {A B} (f : A -> M B) xs st0 log st :
  (forall x, keeps_store (f x)) ->
  threaded f xs st0 log st ->
  (forall i s r, (i, s, r) ∈ log -> store s = store st0) /\ store st = store st0.
Proof.
  intros Hk. revert st0.
  induction log as [| [[i0 s0] r0] log IH]; intros st0 H; simpl in H.
  - subst st. split; [| reflexivity]. intros i s r Hin. inversion Hin.
  - destruct H as (-> & x & Hx & Hr & H). destruct (IH _ H) as [H1 H2].
    split.
    + intros i s r Hin. apply elem_of_cons in Hin. destruct Hin as [E | Hin].
      * injection E as -> -> ->. reflexivity.
      * rewrite (H1 _ _ _ Hin). apply Hk.
    + rewrite H2. apply Hk.
Qed.

Lemma div_chunk j cs k : k < cs -> (j * cs + k) / cs = j.
Proof.
  intros H. rewrite Nat.div_add_l by lia. rewrite Nat.div_small by lia. lia.
Qed.

Lemma div_chunk_inv i cs : 0 < cs -> exists k, k < cs /\ i = i / cs * cs + k.
Proof.
  intros H. exists (i mod cs). split; [apply Nat.mod_upper_bound; lia |].
  pose proof (Nat.div_mod_eq i cs). lia.
Qed.

Lemma chunk_at_length {A} (xs : list A) cs j :
  length (chunk_at xs cs j) = Nat.min cs (length xs - j * cs).
Proof. unfold chunk_at. now rewrite length_take, length_drop. Qed.

Lemma chunk_at_lookup {A} (xs : list A) cs j k :
  k < cs -> chunk_at xs cs j !! k = xs !! (j * cs + k).
Proof. intros H. unfold chunk_at. now rewrite lookup_take_lt, lookup_drop by assumption. Qed.

Lemma delete_middle {A} (l1 l2 : list A) x : delete (length l1) (l1 ++ x :: l2) = l1 ++ l2.
Proof. induction l1 as [| a l1 IH]; simpl; [reflexivity | now f_equal]. Qed.

Lemma insert_middle {A} (l1 l2 : list A) x y :
  <[length l1 := y]> (l1 ++ x :: l2) = l1 ++ y :: l2.
Proof. induction l1 as [| a l1 IH]; simpl; [reflexivity | now f_equal]. Qed.

Lemma pool_measure_app {A B} (l1 l2 : list (Task A B)) :
  pool_measure (l1 ++ l2) = pool_measure l1 + pool_measure l2.
Proof. unfold pool_measure. now rewrite List.map_app, list_sum_app. Qed.

Lemma mem_snoc {X} (l : list X) (a b : X) : a ∈ l ++ [b] <-> a ∈ l \/ a = b.
Proof. rewrite elem_of_app, list_elem_of_singleton. reflexivity. Qed.

Lemma log_index_elem {B} (log : list (nat * State * Result B)) i :
  i ∈ log_index <$> log <-> exists s r, (i, s, r) ∈ log.
Proof.
  rewrite list_elem_of_fmap. split.
  - intros ([[i0 s] r] & -> & H). simpl. eauto.
  - intros (s & r & H). exists (i, s, r). auto.
Qed.

Section PoolRun.
Context {A B : Type} (f : A -> M B) (xs : list A) (cs : nat) (st0 : State).
Hypothesis cs_pos : 0 < cs.

Lemma pool_inv_deliver l1 t l2 value log st :
  pool_inv f xs cs st0 (l1 ++ t :: l2) value log st ->
  task_todo t = [] ->
  pool_inv f xs cs st0 (l1 ++ l2) (mr_set value cs (task_i t) (task_result t)) log st.
Proof.
  intros [Hth Hna Hnl Hact Hdel Hval Hskip] Htodo.
  assert (Ht : t ∈ l1 ++ t :: l2) by (rewrite elem_of_app, elem_of_cons; auto).
  destruct (Hact t Ht) as (Hj & Hlen & Hres & Hfail).
  remember (task_i t) as j eqn:Ej.
  rewrite fmap_app, fmap_cons in Hna.
  apply NoDup_app in Hna. destruct Hna as (Hn1 & Hn12 & Hn2).
  apply NoDup_cons in Hn2. destruct Hn2 as (Hn2 & Hn3).
  pose proof (chunk_at_length xs cs j) as HL.
  constructor; try assumption.
  - rewrite fmap_app. apply NoDup_app. repeat split; try assumption.
    intros y Hy Hy2. apply (Hn12 y Hy). now apply elem_of_cons; right.
  - intros t0 Ht0. apply Hact. rewrite elem_of_app in Ht0 |- *.
    rewrite elem_of_cons. tauto.
  - intros i vs Hi Hnot Hvs.
    unfold task_result in Hvs.
    destruct value as [vs0 | e0]; destruct (task_failure t) as [e |]; try discriminate.
    simpl in Hvs. injection Hvs as <-.
    destruct Hfail as (Hdrop & _). rewrite Htodo in Hdrop. symmetry in Hdrop.
    apply (f_equal length) in Hdrop. rewrite length_drop in Hdrop. simpl in Hdrop.
    simpl in Hval.
    destruct (div_chunk_inv i cs cs_pos) as (k & Hk & Hik).
    destruct (Nat.eq_dec (i / cs) j) as [E | NE].
    + rewrite E in Hik.
      assert (Hkr : k < length (task_results t)) by lia.
      destruct (lookup_lt_is_Some_2 _ _ Hkr) as [v Hv].
      destruct (Hres k v Hv) as [s Hs].
      exists s, v. rewrite <- Hik in Hs. split; [assumption |].
      rewrite lookup_app_r by (rewrite length_take; lia).
      rewrite length_take. replace (i - Nat.min (j * cs) (length vs0)) with k by lia.
      rewrite lookup_app_l by (rewrite length_map; lia).
      change (List.map Some (task_results t)) with (Some <$> task_results t).
      now rewrite list_lookup_fmap, Hv.
    + assert (Hnot' : i / cs ∉ task_i <$> (l1 ++ t :: l2)).
      { rewrite fmap_app, fmap_cons, elem_of_app, elem_of_cons.
        rewrite fmap_app, elem_of_app in Hnot. rewrite <- Ej. tauto. }
      destruct (Hdel i vs0 Hi Hnot' eq_refl) as (s & v & Hs & Hv).
      exists s, v. split; [assumption |]. rewrite <- Hv.
      destruct (Nat.lt_ge_cases (i / cs) j) as [Hlt | Hge].
      * assert (i < j * cs) by nia.
        rewrite lookup_app_l by (rewrite length_take; lia).
        now rewrite lookup_take_lt.
      * assert ((j + 1) * cs <= i) by nia.
        rewrite lookup_app_r by (rewrite length_take; lia).
        rewrite length_take.
        rewrite lookup_app_r by (rewrite length_map; nia).
        rewrite length_map, lookup_drop. f_equal. nia.
  - unfold task_result.
    destruct value as [vs0 | e0]; destruct (task_failure t) as [e |]; simpl in *;
      try assumption.
    + destruct Hfail as (_ & s & Hs). eauto.
    + destruct Hfail as (Hdrop & _). rewrite Htodo in Hdrop. symmetry in Hdrop.
      apply (f_equal length) in Hdrop. rewrite length_drop in Hdrop. simpl in Hdrop.
      rewrite !length_app, length_take, length_map, length_drop. nia.
Qed.

Lemma pool_inv_task l1 t l2 value log st x rest :
  pool_inv f xs cs st0 (l1 ++ t :: l2) value log st ->
  task_todo t = x :: rest ->
  pool_inv f xs cs st0
    (l1 ++ match fst (f x st) with
           | Ok v => mkTask (task_i t) rest (task_results t ++ [v]) None
           | Raise e => mkTask (task_i t) [] (task_results t) (Some e)
           end :: l2)
    value
    (log ++ [(task_i t * cs + length (task_results t), st, fst (f x st))])
    (snd (f x st)).
Proof.
  intros [Hth Hna Hnl Hact Hdel Hval Hskip] Htodo.
  assert (Ht : t ∈ l1 ++ t :: l2) by (rewrite elem_of_app, elem_of_cons; auto).
  destruct (Hact t Ht) as (Hj & Hlen & Hres & Hfail).
  remember (task_i t) as j eqn:Ej. remember (task_results t) as results eqn:Eres.
  destruct (task_failure t) as [e |] eqn:Hf.
  { destruct Hfail as (E & _). congruence. }
  destruct Hfail as (Hdrop & Hlogj). rewrite Htodo in Hdrop.
  pose proof (chunk_at_length xs cs j) as HL.
  assert (Hlt : length results < length (chunk_at xs cs j)).
  { apply (f_equal length) in Hdrop. rewrite length_drop in Hdrop. simpl in Hdrop. lia. }
  assert (Hx : xs !! (j * cs + length results) = Some x).
  { rewrite <- chunk_at_lookup by lia.
    assert (H0 : drop (length results) (chunk_at xs cs j) !! 0 = Some x)
      by (rewrite <- Hdrop; reflexivity).
    now rewrite lookup_drop, Nat.add_0_r in H0. }
  assert (Hrest : rest = drop (S (length results)) (chunk_at xs cs j)).
  { replace (S (length results)) with (length results + 1) by lia.
    rewrite <- drop_drop, <- Hdrop. reflexivity. }
  assert (Hdiv : (j * cs + length results) / cs = j) by (apply div_chunk; lia).
  set (inew := j * cs + length results) in *.
  set (r := fst (f x st)).
  set (t' := match r with
             | Ok v => mkTask j rest (results ++ [v]) None
             | Raise e => mkTask j [] results (Some e)
             end).
  assert (Hti : task_i t' = j) by (unfold t'; destruct r; reflexivity).
  assert (Hfresh : inew ∉ log_index <$> log).
  { intros Hin. apply log_index_elem in Hin. destruct Hin as (s & r0 & Hin).
    destruct (Hlogj _ _ _ Hin Hdiv). lia. }
  assert (Hidx : task_i <$> (l1 ++ t' :: l2) = task_i <$> (l1 ++ t :: l2)).
  { rewrite !fmap_app, !fmap_cons, Hti, Ej. reflexivity. }
  assert (Hother : forall t0, t0 ∈ l1 ++ l2 -> task_i t0 <> j).
  { intros t0 Ht0 E. rewrite Ej in E. rewrite fmap_app, fmap_cons in Hna.
    apply NoDup_app in Hna. destruct Hna as (_ & Hn12 & Hn2).
    apply NoDup_cons in Hn2. destruct Hn2 as (Hn2 & _).
    apply elem_of_app in Ht0. destruct Ht0 as [Ht0 | Ht0].
    - apply (Hn12 (task_i t0)); [now apply list_elem_of_fmap_2 |].
      rewrite E. apply elem_of_cons. now left.
    - apply Hn2. rewrite <- E. now apply list_elem_of_fmap_2. }
  constructor.
  - apply threaded_snoc; assumption.
  - rewrite Hidx. assumption.
  - rewrite fmap_app. apply NoDup_app. repeat split; [assumption | | apply NoDup_singleton].
    intros y Hy Hy2. simpl in Hy2. apply list_elem_of_singleton in Hy2. subst y.
    now apply Hfresh.
  - intros t0 Ht0. rewrite elem_of_app, elem_of_cons in Ht0.
    assert (Hcase : t0 = t' \/ t0 ∈ l1 ++ l2) by (rewrite elem_of_app; tauto).
    clear Ht0. destruct Hcase as [-> | Ht0].
    + rewrite Hti. unfold t'. destruct r as [v | e] eqn:Hr; simpl.
      * split; [assumption |]. split; [rewrite length_app; simpl; lia |].
        split.
        { intros k v0 Hk. apply lookup_app_Some in Hk. destruct Hk as [Hk | (Hge & Hk)].
          - destruct (Hres k v0 Hk) as [s Hs]. exists s. apply mem_snoc. now left.
          - destruct (k - length results) as [| m] eqn:Ek; simpl in Hk; [| discriminate].
            injection Hk as <-. exists st. apply mem_snoc. right.
            unfold inew. repeat f_equal. lia. }
        split.
        { rewrite length_app. simpl. rewrite Nat.add_1_r. exact Hrest. }
        intros i s r0 Hin Hi. apply mem_snoc in Hin. rewrite length_app. simpl.
        destruct Hin as [Hin | E].
        { destruct (Hlogj _ _ _ Hin Hi). split; [lia | assumption]. }
        injection E as -> -> ->. split; [unfold inew; lia | eauto].
      * split; [assumption |]. split; [lia |].
        split.
        { intros k v0 Hk. destruct (Hres k v0 Hk) as [s Hs]. exists s.
          apply mem_snoc. now left. }
        split; [reflexivity |]. exists st. apply mem_snoc. now right.
    + assert (Ht0' : t0 ∈ l1 ++ t :: l2).
      { rewrite elem_of_app in Ht0 |- *. rewrite elem_of_cons. tauto. }
      destruct (Hact t0 Ht0') as (H1 & H2 & H3 & H4).
      split; [assumption |]. split; [assumption |].
      split.
      { intros k v0 Hk. destruct (H3 k v0 Hk) as [s Hs]. exists s. apply mem_snoc. now left. }
      destruct (task_failure t0) as [e0 |].
      * destruct H4 as (H4 & s & Hs). split; [assumption |]. exists s.
        apply mem_snoc. now left.
      * destruct H4 as (H4 & H5). split; [assumption |].
        intros i s r0 Hin Hi. apply mem_snoc in Hin. destruct Hin as [Hin | E].
        { now apply (H5 _ _ _ Hin). }
        injection E as -> -> ->. exfalso. apply (Hother t0 Ht0). congruence.
  - intros i vs Hi Hnot Hvs. rewrite Hidx in Hnot.
    destruct (Hdel i vs Hi Hnot Hvs) as (s & v & Hs & Hv).
    exists s, v. split; [apply mem_snoc; now left | assumption].
  - destruct value as [vs | e]; [assumption |].
    destruct Hval as (i & s & Hs). exists i, s. apply mem_snoc. now left.
  - intros i s e i' Hin Hi' Hdiv'.
    apply mem_snoc in Hin. apply log_index_elem in Hi'. destruct Hi' as (s' & r' & Hi').
    apply mem_snoc in Hi'.
    destruct Hin as [Hin | E]; destruct Hi' as [Hi' | E'].
    + apply (Hskip i s e i' Hin); [| assumption].
      apply log_index_elem. eauto.
    + injection E' as -> -> ->.
      destruct (Hlogj _ _ _ Hin) as (_ & v & Hv); [congruence | discriminate].
    + injection E as -> -> Er.
      destruct (Hlogj _ _ _ Hi') as (Hlti & _); [congruence | unfold inew; lia].
    + injection E as -> -> Er. injection E' as -> -> Er'. lia.
Qed.

Lemma pool_run_inv choose :
  forall fuel active value log st,
    pool_measure active <= fuel ->
    pool_inv f xs cs st0 active value log st ->
    let o := pool_run f choose cs fuel active value log st in
    pool_inv f xs cs st0 [] (po_result o) (po_log o) (po_state o).
Proof.
  induction fuel as [| fuel IH]; intros active value log st Hm Hinv; simpl.
  - destruct active as [| t active]; [exact Hinv |].
    unfold pool_measure in Hm. simpl in Hm. lia.
  - destruct (active !! (choose fuel mod length active)) as [t |] eqn:Hk.
    2:{ destruct active as [| t active]; [exact Hinv |].
        apply lookup_ge_None in Hk.
        pose proof (Nat.mod_upper_bound (choose fuel) (length (t :: active))) as Hb.
        simpl in Hb, Hk. lia. }
    apply list_elem_of_split_length in Hk. destruct Hk as (l1 & l2 & -> & Hk).
    rewrite Hk.
    rewrite pool_measure_app in Hm. unfold pool_measure at 2 in Hm. simpl in Hm.
    fold (pool_measure l2) in Hm.
    destruct (task_todo t) as [| x rest] eqn:Htodo.
    + rewrite delete_middle. apply IH.
      * rewrite pool_measure_app. lia.
      * now apply pool_inv_deliver.
    + pose proof (pool_inv_task l1 t l2 value log st x rest Hinv Htodo) as Hstep.
      destruct (f x st) as [r st'] eqn:Hf. simpl in Hstep.
      rewrite insert_middle. apply IH; [| exact Hstep].
      rewrite pool_measure_app. unfold pool_measure at 2. simpl.
      fold (pool_measure l2). simpl in Hm. destruct r; simpl; lia.
Qed.

End PoolRun.

Lemma get_tasks_S {A} (it : list A) size fuel :
  get_tasks it size (S fuel)
  = match take size it with
    | [] => []
    | x => x :: get_tasks (drop size it) size fuel
    end.
Proof. reflexivity. Qed.

Lemma take_nil_inv {A} (it : list A) size : 0 < size -> take size it = [] -> it = [].
Proof. intros Hs H. destruct it; [reflexivity |]. destruct size; [lia | discriminate]. Qed.

Lemma get_tasks_lookup {A} (size : nat) :
  0 < size ->
  forall fuel (it : list A) j,
    length it <= fuel ->
    get_tasks it size fuel !! j
    = if (j * size <? length it)%nat then Some (take size (drop (j * size) it)) else None.
Proof.
  intros Hs. induction fuel as [| fuel IH]; intros it j Hlen.
  - destruct it; [| simpl in Hlen; lia]. simpl.
    destruct (Nat.ltb_spec (j * size) 0); [lia | reflexivity].
  - rewrite get_tasks_S. destruct (take size it) as [| a c] eqn:Htake.
    + apply take_nil_inv in Htake; [| assumption]. subst it. simpl.
      destruct (Nat.ltb_spec (j * size) 0); [lia | reflexivity].
    + rewrite <- Htake. destruct j as [| j].
      * simpl. destruct it; [now rewrite take_nil in Htake | reflexivity].
      * change ((take size it :: get_tasks (drop size it) size fuel) !! S j)
          with (get_tasks (drop size it) size fuel !! j).
        rewrite IH by (rewrite length_drop; lia).
        rewrite length_drop, drop_drop.
        change (S j * size) with (size + j * size).
        destruct (Nat.ltb_spec (j * size) (length it - size));
          destruct (Nat.ltb_spec (size + j * size) (length it)); try lia; reflexivity.
Qed.

Lemma get_tasks_concat {A} (size : nat) :
  0 < size ->
  forall fuel (it : list A), length it <= fuel -> concat (get_tasks it size fuel) = it.
Proof.
  intros Hs. induction fuel as [| fuel IH]; intros it Hlen.
  - destruct it; [reflexivity | simpl in Hlen; lia].
  - rewrite get_tasks_S. destruct (take size it) as [| a c] eqn:Htake.
    + apply take_nil_inv in Htake; [| assumption]. now subst it.
    + rewrite <- Htake. simpl concat. rewrite IH.
      * apply take_drop.
      * rewrite length_drop. destruct it; simpl in *; [now rewrite take_nil in Htake | lia].
Qed.

Lemma pool_measure_init {A B} (chunks : list (list A)) (g : nat -> nat) :
  pool_measure (imap (fun i x => @mkTask A B (g i) x [] None) chunks)
  = length chunks + length (concat chunks).
Proof.
  revert g. induction chunks as [| c chunks IH]; intros g; [reflexivity |].
  rewrite imap_cons. unfold pool_measure in *. simpl. rewrite length_app.
  specialize (IH (g ∘ S)). unfold compose in IH.
  change (list_sum (List.map (fun t : Task A B => S (length (task_todo t)))
            (imap (fun i x => mkTask (g (S i)) x [] None) chunks))
          = length chunks + length (concat chunks)) in IH.
  unfold compose. rewrite IH. lia.
Qed.

Lemma pool_inv_init {A B} (f : A -> M B) (xs : list A) (cs : nat) (st : State) :
  0 < cs ->
  pool_inv f xs cs st
    (imap (fun i x => mkTask i x [] None) (get_tasks xs cs (length xs)))
    (Ok (replicate (length xs) None)) [] st.
Proof.
  intros Hcs.
  assert (Hlk : forall j t,
             imap (fun i x => @mkTask A B i x [] None) (get_tasks xs cs (length xs)) !! j = Some t ->
             j * cs < length xs /\ t = mkTask j (chunk_at xs cs j) [] None).
  { intros j t Hj. rewrite list_lookup_imap, get_tasks_lookup in Hj by lia.
    destruct (Nat.ltb_spec (j * cs) (length xs)); [| discriminate].
    simpl in Hj. injection Hj as <-. split; [assumption | reflexivity]. }
  constructor.
  - reflexivity.
  - apply NoDup_alt. intros i j y Hi Hj.
    rewrite list_lookup_fmap in Hi, Hj.
    destruct (imap _ _ !! i) as [ti |] eqn:Eti; [| discriminate].
    destruct (imap _ _ !! j) as [tj |] eqn:Etj; [| discriminate].
    apply Hlk in Eti, Etj. destruct Eti as (_ & ->). destruct Etj as (_ & ->).
    simpl in Hi, Hj. congruence.
  - apply NoDup_nil_2.
  - intros t Ht. apply list_elem_of_lookup in Ht. destruct Ht as [j Hj].
    apply Hlk in Hj. destruct Hj as (Hj & ->). simpl.
    split; [assumption |]. split; [lia |].
    split; [intros k v Hk; discriminate |].
    split; [reflexivity |]. intros i s r Hin. inversion Hin.
  - intros i vs Hi Hnot _. exfalso. apply Hnot.
    apply list_elem_of_fmap. exists (mkTask (i / cs) (chunk_at xs cs (i / cs)) [] None).
    split; [reflexivity |].
    apply (list_elem_of_lookup_2 _ (i / cs)).
    rewrite list_lookup_imap, get_tasks_lookup by lia.
    pose proof (Nat.div_mod_eq i cs).
    destruct (Nat.ltb_spec (i / cs * cs) (length xs)); [reflexivity | lia].
  - simpl. apply length_replicate.
  - intros i s e i' Hin. inversion Hin.
Qed.

Lemma ThreadPool_processes_pos : 0 < ThreadPool_processes.
Proof. unfold ThreadPool_processes. destruct cpu_count; lia. Qed.

Lemma map_chunksize_pos len processes :
  0 < len -> 0 < processes -> 0 < map_chunksize len processes.
Proof.
  intros Hl Hp. unfold map_chunksize.
  destruct (Nat.eqb_spec (len mod (processes * 4)) 0) as [E |]; [| lia].
  pose proof (Nat.div_mod_eq len (processes * 4)). nia.
Qed.

Lemma map_chunksize_0 processes : 0 < processes -> map_chunksize 0 processes = 0.
Proof.
  intros Hp. unfold map_chunksize.
  rewrite Nat.Div0.mod_0_l, Nat.Div0.div_0_l. reflexivity.
Qed.

(** What [pool.map] leaves once every chunk is delivered. *)
Lemma pool_map_inv {A B} (f : A -> M B) (choose : nat -> nat) (xs : list A) (st : State) :
  let o := pool_map f choose xs st in
  pool_inv f xs (map_chunksize (length xs) ThreadPool_processes) st []
           (po_result o) (po_log o) (po_state o).
Proof.
  unfold pool_map.
  destruct xs as [| x xs].
  - simpl length. rewrite (map_chunksize_0 _ ThreadPool_processes_pos). simpl.
    constructor; simpl; try reflexivity; try apply NoDup_nil_2.
    + intros t Ht. inversion Ht.
    + intros i vs Hi. lia.
    + intros i s e i' Hin. inversion Hin.
  - set (n := length (x :: xs)).
    assert (Hcs : 0 < map_chunksize n ThreadPool_processes).
    { apply map_chunksize_pos; [unfold n; simpl; lia | apply ThreadPool_processes_pos]. }
    apply pool_run_inv; [assumption | | now apply pool_inv_init].
    rewrite (pool_measure_init _ id), get_tasks_concat by (fold n; lia).
    fold n. lia.
Qed.

(** The results of [pool.map], whatever the schedule. *)
Lemma pool_map_in_order {A B} (f : A -> M B) (choose : nat -> nat) (xs : list A)
    (st : State) :
  let o := pool_map f choose xs st in
  threaded f xs st (po_log o) (po_state o) /\
  NoDup (log_index <$> po_log o) /\
  match po_result o with
  | Ok vs =>
      length vs = length xs /\
      forall i, i < length xs ->
        exists x s v,
          xs !! i = Some x /\ (i, s, Ok v) ∈ po_log o /\
          fst (f x s) = Ok v /\ vs !! i = Some (Some v)
  | Raise e =>
      exists i x s,
        xs !! i = Some x /\ (i, s, Raise e) ∈ po_log o /\ fst (f x s) = Raise e
  end.
Proof.
  intros o. destruct (pool_map_inv f choose xs st) as [Hth _ Hnl _ Hdel Hval _].
  fold o in Hth, Hnl, Hdel, Hval.
  split; [assumption |]. split; [assumption |].
  destruct (po_result o) as [vs | e].
  - split; [assumption |]. intros i Hi.
    destruct (Hdel i vs Hi ltac:(intros H; inversion H) eq_refl) as (s & v & Hs & Hv).
    destruct (threaded_elem _ _ _ _ _ _ _ _ Hth Hs) as (x & Hx & Hr).
    exists x, s, v. auto.
  - destruct Hval as (i & s & Hs).
    destruct (threaded_elem _ _ _ _ _ _ _ _ Hth Hs) as (x & Hx & Hr).
    exists i, x, s. auto.
Qed.

(** A call that raises is the last of its chunk. *)
Lemma pool_map_skips {A B} (f : A -> M B) (choose : nat -> nat) (xs : list A)
    (st : State) i s e i' :
  let o := pool_map f choose xs st in
  let chunksize := map_chunksize (length xs) ThreadPool_processes in
  (i, s, Raise e) ∈ po_log o -> i < i' -> i' / chunksize = i / chunksize ->
  i' ∉ log_index <$> po_log o.
Proof.
  intros o chunksize Hin Hlt Hdiv Hi'.
  destruct (pool_map_inv f choose xs st) as [_ _ _ _ _ _ Hskip].
  specialize (Hskip i s e i' Hin Hi' Hdiv). lia.
Qed.

(** C9: whatever the order in which the pool runs the commands and
    delivers their chunks, the calls it made form one run from the state
    it started in, no command is called twice, every call finds the
    objects as they were at the start, and the parallel [fg] and [stdout]
    either return a list as long as the sequence of commands whose element
    at every index is the result that the command at that index gave when
    the pool called it, or raise an exception that one of the commands
    raised when the pool called it. *)
Theorem parallel_results_in_order (self : ParallelCommands) (choose : nat -> nat)
    (st : State) :
  (forall quiet check,
      let o := ParallelCommands_fg self choose quiet check st in
      threaded (fun command => Command_fg command quiet check) (commands self) st
               (po_log o) (po_state o) /\
      NoDup (log_index <$> po_log o) /\
      (forall i s r, (i, s, r) ∈ po_log o -> store s = store st) /\
      match po_result o with
      | Ok codes =>
          length codes = length (commands self) /\
          forall i, i < length (commands self) ->
            exists command s code,
              commands self !! i = Some command /\
              (i, s, Ok code) ∈ po_log o /\
              fst (Command_fg command quiet check s) = Ok code /\
              codes !! i = Some (Some code)
      | Raise e =>
          exists i command s,
            commands self !! i = Some command /\
            (i, s, Raise e) ∈ po_log o /\
            fst (Command_fg command quiet check s) = Raise e
      end) /\
  (let o := ParallelCommands_stdout self choose st in
   threaded (fun command => Command_stdout command true) (commands self) st
            (po_log o) (po_state o) /\
   NoDup (log_index <$> po_log o) /\
   (forall i s r, (i, s, r) ∈ po_log o -> store s = store st) /\
   match po_result o with
   | Ok outs =>
       length outs = length (commands self) /\
       forall i, i < length (commands self) ->
         exists command s out,
           commands self !! i = Some command /\
           (i, s, Ok out) ∈ po_log o /\
           fst (Command_stdout command true s) = Ok out /\
           outs !! i = Some (Some out)
   | Raise e =>
       exists i command s,
         commands self !! i = Some command /\
         (i, s, Raise e) ∈ po_log o /\
         fst (Command_stdout command true s) = Raise e
   end).
Proof.
  split; [intros quiet check |].
  - intros o.
    destruct (pool_map_in_order (fun command => Command_fg command quiet check) choose
                (commands self) st) as (Hth & Hnd & H).
    fold o in Hth, Hnd, H.
    split; [exact Hth |]. split; [exact Hnd |]. split; [| exact H].
    apply (threaded_store _ _ _ _ _ (fun x => keeps_Command_fg x quiet check) Hth).
  - intros o.
    destruct (pool_map_in_order (fun command => Command_stdout command true) choose
                (commands self) st) as (Hth & Hnd & H).
    fold o in Hth, Hnd, H.
    split; [exact Hth |]. split; [exact Hnd |]. split; [| exact H].
    apply (threaded_store _ _ _ _ _ (fun x => keeps_Command_stdout x true) Hth).
Qed.

End Properties.

(** ** The duplicate-definition filter *)

Lemma words_from_nonempty sep cur s :
  nonempty cur = true \/ all_chars sep s = false -> words_from sep cur s <> [].
Proof.
  revert cur. induction s as [| c s IH]; intros cur H; simpl.
  - destruct H as [H | H]; [now rewrite H | discriminate].
  - destruct (sep c) eqn:Hc.
    + destruct (nonempty cur) eqn:Hcur; [discriminate |].
      simpl. apply IH. right. destruct H as [H | H]; [discriminate |].
      simpl in H. now rewrite Hc in H.
    + apply IH. left. unfold snoc. destruct cur; reflexivity.
Qed.

Lemma contains_not_all c p l :
  contains c l = true -> p c = false -> all_chars p l = false.
Proof.
  intros Hc Hp. induction l as [| a l IH]; simpl in *; [discriminate |].
  destruct (Ascii.eqb_spec a c) as [-> | Hne].
  - now rewrite Hp.
  - simpl in Hc. rewrite (IH Hc). apply andb_false_r.
Qed.

(** A line that defines a key has a first token: [l.split()[0]] is there. *)
Lemma definition_has_key l :
  is_definition l = true -> exists key rest, split l = key :: rest.
Proof.
  unfold is_definition. intros H. apply andb_prop in H. destruct H as [_ H].
  pose proof (words_from_nonempty isspace EmptyString l
                (or_intror (contains_not_all ":"%char isspace l H eq_refl))) as Hne.
  unfold split, words. destruct (words_from isspace EmptyString l) as [| key rest];
    [congruence | eauto].
Qed.

Lemma find_key_shift key data i :
  find_key key data (S i) = S <$> find_key key data i.
Proof.
  revert i. induction data as [| l rest IH]; intros i; simpl; [reflexivity |].
  destruct (decide (key_of l = Some key)); [reflexivity | apply IH].
Qed.

Lemma find_key_snoc key seen l :
  find_key key (seen ++ [l]) 0
  = match find_key key seen 0 with
    | Some j => Some j
    | None => if decide (key_of l = Some key) then Some (length seen) else None
    end.
Proof.
  induction seen as [| a seen IH]; simpl; [reflexivity |].
  destruct (decide (key_of a = Some key)); [reflexivity |].
  rewrite !find_key_shift, IH.
  destruct (find_key key seen 0); [reflexivity |].
  destruct (decide (key_of l = Some key)); reflexivity.
Qed.

Lemma find_key_absent key data i :
  Some key ∉ List.map key_of data -> find_key key data i = None.
Proof.
  revert i. induction data as [| l rest IH]; intros i H; simpl; [reflexivity |].
  destruct (decide (key_of l = Some key)) as [E | _].
  - exfalso. apply H. simpl. rewrite E. apply elem_of_cons. now left.
  - apply IH. intros Hin. apply H. simpl. apply elem_of_cons. now right.
Qed.

Lemma find_key_found key data j :
  find_key key data 0 = Some j ->
  exists l, data !! j = Some l /\ key_of l = Some key.
Proof.
  revert j. induction data as [| a rest IH]; intros j; simpl; [discriminate |].
  destruct (decide (key_of a = Some key)) as [E | _].
  - intros [= <-]. now exists a.
  - rewrite find_key_shift. destruct (find_key key rest 0) as [j' |] eqn:Hj; [| discriminate].
    intros [= <-]. simpl. now apply IH.
Qed.

Lemma records_snoc_key last_seen seen l key :
  records last_seen seen -> key_of l = Some key -> last_seen !! key = None ->
  records (<[key := length seen]> last_seen) (seen ++ [l]).
Proof.
  intros Hrec Hl Hnone key'. rewrite find_key_snoc, <- Hrec.
  destruct (decide (key = key')) as [<- | Hne].
  - rewrite lookup_insert_eq, Hnone. now rewrite decide_True.
  - rewrite lookup_insert_ne by assumption.
    destruct (last_seen !! key'); [reflexivity |].
    rewrite decide_False; [reflexivity | congruence].
Qed.

Lemma records_snoc_other last_seen seen l :
  records last_seen seen -> key_of l = None ->
  records last_seen (seen ++ [l]).
Proof.
  intros Hrec Hl key. rewrite find_key_snoc, <- Hrec.
  destruct (last_seen !! key); [reflexivity |].
  rewrite decide_False; [reflexivity | congruence].
Qed.

(** The loop runs through lines whose keys are new, printing each. *)
Lemma scan_prefix pre :
  forall seen last_seen rest,
    records last_seen seen ->
    NoDup (List.filter (fun o => bool_decide (is_Some o)) (List.map key_of (seen ++ pre))) ->
    exists last_seen',
      records last_seen' (seen ++ pre) /\
      scan (length seen) (pre ++ rest) last_seen
      = (pre ++ fst (scan (length (seen ++ pre)) rest last_seen'),
         snd (scan (length (seen ++ pre)) rest last_seen')).
Proof.
  induction pre as [| l pre IH]; intros seen last_seen rest Hrec Hnd.
  - exists last_seen. rewrite app_nil_r. split; [assumption |].
    simpl. now destruct (scan (length seen) rest last_seen).
  - assert (Hassoc : seen ++ l :: pre = (seen ++ [l]) ++ pre)
      by now rewrite <- List.app_assoc.
    rewrite Hassoc in Hnd |- *.
    assert (Hlen : length (seen ++ [l]) = S (length seen))
      by (rewrite length_app; simpl; lia).
    simpl. unfold key_of in *.
    destruct (is_definition l) eqn:Hdef.
    + destruct (definition_has_key l Hdef) as (key & tl & Hsplit). rewrite Hsplit.
      assert (Hkey : key_of l = Some key) by (unfold key_of; now rewrite Hdef, Hsplit).
      assert (Hnone : last_seen !! key = None).
      { rewrite Hrec. apply find_key_absent. intros Hin.
        rewrite !List.map_app, !List.filter_app in Hnd.
        apply NoDup_app in Hnd. destruct Hnd as (Hnd & _ & _).
        apply NoDup_app in Hnd. destruct Hnd as (_ & Hdisj & _).
        apply (Hdisj (Some key)).
        - apply list_elem_of_In, List.filter_In. split; [now apply list_elem_of_In |].
          reflexivity.
        - simpl. fold (key_of l). rewrite Hkey. simpl. apply elem_of_cons. now left. }
      rewrite Hnone.
      destruct (IH (seen ++ [l]) (<[key := length seen]> last_seen) rest
                  (records_snoc_key _ _ _ _ Hrec Hkey Hnone) Hnd) as (m' & Hrec' & E).
      rewrite Hlen in E. rewrite E. exists m'. split; [assumption | reflexivity].
    + assert (Hkey : key_of l = None) by (unfold key_of; now rewrite Hdef).
      destruct (IH (seen ++ [l]) last_seen rest
                  (records_snoc_other _ _ _ Hrec Hkey) Hnd) as (m' & Hrec' & E).
      rewrite Hlen in E. rewrite E. exists m'. split; [assumption | reflexivity].
Qed.

Lemma records_empty : records ∅ [].
Proof. intros key. apply lookup_empty. Qed.

(** C8, as the code has it: the lines are stripped of surrounding white
    space first.  When no key is defined twice, every stripped line is
    printed, in order, and the script ends normally.  When a line defines
    a key that an earlier line defined, and the lines before it define no
    key twice, the script exits with the message that cites the index of
    that line and the index of the earlier one; the stripped lines before
    it have been printed by then. *)
Theorem detect_duplication_spec (stdin_lines : list string) :
  let data := List.map strip stdin_lines in
  let keys l := List.filter (fun o => bool_decide (is_Some o)) (List.map key_of l) in
  (NoDup (keys data) -> detect_duplication stdin_lines = (data, ExitZero)) /\
  (forall pre l post key j,
      data = pre ++ l :: post ->
      NoDup (keys pre) ->
      key_of l = Some key ->
      find_key key pre 0 = Some j ->
      detect_duplication stdin_lines = (pre, SysExit (redefined key (length pre) j)) /\
      exists earlier, pre !! j = Some earlier /\ key_of earlier = Some key).
Proof.
  intros data keys. unfold detect_duplication. fold data. split.
  - intros Hnd.
    destruct (scan_prefix data [] ∅ [] records_empty Hnd) as (m & _ & E).
    rewrite app_nil_r in E. simpl in E. rewrite E. now rewrite app_nil_r.
  - intros pre l post key j Hdata Hnd Hkey Hfind.
    split; [| now apply find_key_found].
    destruct (scan_prefix pre [] ∅ (l :: post) records_empty Hnd) as (m & Hrec & E).
    rewrite Hdata. simpl in E. rewrite E. simpl.
    unfold key_of in Hkey. destruct (is_definition l); [| discriminate].
    destruct (split l) as [| k tl]; [discriminate |]. simpl in Hkey.
    injection Hkey as ->. pose proof (Hrec key) as Hm. simpl in Hm.
    rewrite Hm, Hfind. simpl. now rewrite app_nil_r.
Qed.

(** * The properties at work *)

(** C1, witness: a line with a bare word, a quoted span, an empty fragment
    and another word. *)
Lemma tokenize_spec_witness :
  forallb (forallb item_ok) [[Plain "x"; Span "foo bar"; Plain ""; Plain "y"]] = true /\
  shell_like_split (lines_text [[Plain "x"; Span "foo bar"; Plain ""; Plain "y"]])
  = Ok ["x"; "foo bar"; "y"].
Proof.
  split; [reflexivity |].
  exact (proj2 (proj2 (proj2 (proj2 (proj2 (proj2 (proj2 (proj2
           (@tokenize_spec demo_os))))))))
           [[Plain "x"; Span "foo bar"; Plain ""; Plain "y"]] eq_refl).
Defined.

(** C1, counterexample: a tab is white space, yet the text [a<TAB>b] is one
    token, where splitting at runs of white space gives two. *)
Lemma tokenize_tab_counterexample :
  split tabbed = ["a"; "b"] /\
  shell_like_split tabbed = Ok [tabbed] /\
  parse_cmd (os := demo_os) [AOther tabbed] (demo_state [])
  = (Ok [tabbed], demo_state []).
Proof. repeat split; vm_compute; reflexivity. Qed.

(** C2, witness: a program that is neither a file nor on the search path. *)
Lemma Command_new_resolves_witness :
  Command_new (os := demo_os) [AOther "nosuchprogram --x"] None ∅ (demo_state [])
  = (Raise (ValueError ("Required program " ++ String DQUOTE "nosuchprogram"
                        ++ String DQUOTE " cannot be found in PATH.")), demo_state []) /\
  store (demo_state []) = store (demo_state []).
Proof.
  exact (proj2 (proj2 (proj2 (Command_new_resolves (os := demo_os)
           [AOther "nosuchprogram --x"] None ∅ (demo_state [])
           "nosuchprogram" ["--x"] (demo_state []) eq_refl))) eq_refl (or_introl eq_refl)).
Defined.

(** C2, counterexample: a first token of 300 letters names no entry of the
    file system and is not on the search path, and yet the constructor does
    not raise the error of a program that cannot be found: the question to
    the file system fails, with the error of a name that is too long. *)
Lemma Command_new_oserror_counterexample :
  which (OS := demo_os) tt long_name = None /\
  Command_new (os := demo_os) [AQuoted long_name] None ∅ (demo_state [])
  = (Raise (OSError ("[Errno 36] File name too long: '" ++ long_name ++ "'")),
     demo_state []) /\
  Command_new (os := demo_os) [AQuoted long_name] None ∅ (demo_state [])
  <> (Raise (ValueError ("Required program " ++ String DQUOTE long_name
                         ++ String DQUOTE " cannot be found in PATH.")), demo_state []).
Proof.
  split; [vm_compute; reflexivity |].
  assert (E : Command_new (os := demo_os) [AQuoted long_name] None ∅ (demo_state [])
              = (Raise (OSError ("[Errno 36] File name too long: '" ++ long_name ++ "'")),
                 demo_state [])) by (vm_compute; reflexivity).
  split; [exact E |]. rewrite E. discriminate.
Qed.



(** C4, witness: [false], run quietly. *)
Lemma fg_exit_code_witness :
  (exists st',
      Command_fg (os := demo_os) 0 true true (demo_state [false_cmd])
      = (Raise (CalledProcessError 1 (inl "false") (Some "false")), st')) /\
  Command_fg (os := demo_os) 0 true false (demo_state [false_cmd])
  = (Ok 1%Z, demo_state [false_cmd]).
Proof.
  pose proof (fg_exit_code (os := demo_os) 0 true true (demo_state [false_cmd])
                [false_cmd] (mkCompleted 1 (Some "false") None) (demo_state [false_cmd])
                eq_refl) as (_ & Hraise & _ & _).
  pose proof (fg_exit_code (os := demo_os) 0 true false (demo_state [false_cmd])
                [false_cmd] (mkCompleted 1 (Some "false") None) (demo_state [false_cmd])
                eq_refl) as (_ & _ & Hret & _).
  split; [exact (Hraise eq_refl ltac:(discriminate)) | exact (Hret eq_refl)].
Defined.

(** C5, witness: [echo abcd] piped into [wc]. *)
Lemma pipe_spec_witness :
  Command_pipe (os := demo_os) 0 [ACommand 1] (demo_state [echo_cmd; wc_cmd])
  = (Ok 2, allocated (demo_state [echo_cmd; wc_cmd])
             (mkCommand ["wc"] (Some 0) {["LANG" := "C"]} None)).
Proof.
  exact (proj1 (pipe_spec (os := demo_os) (demo_state [echo_cmd; wc_cmd]) 0 1
                  echo_cmd wc_cmd eq_refl eq_refl)).
Defined.

(** C5, counterexample: the command piped into has no overrides of its
    own, and the result of the pipe has those of the receiver. *)
Lemma pipe_env_counterexample :
  exists c st' o,
    Command_pipe (os := demo_os) 0 [ACommand 1] (demo_state [echo_cmd; wc_cmd]) = (Ok c, st') /\
    store st' !! c = Some o /\
    args o = args wc_cmd /\ stdin_cmd o = Some 0 /\
    env_vars o !! "LANG" = Some "C" /\ env_vars wc_cmd !! "LANG" = None.
Proof.
  eexists _, _, _. split; [reflexivity |]. repeat split. 
Qed.

(** C6, witness: an override set on a command that has an upstream. *)
Lemma env_spec_witness :
  Command_env (os := demo_os) 1 "K" "V" (demo_state [echo_cmd; piped_wc_cmd])
  = (Ok 2, allocated (demo_state [echo_cmd; piped_wc_cmd])
             (mkCommand ["wc"] None {["K" := "V"]} None)).
Proof.
  exact (env_spec (os := demo_os) (demo_state [echo_cmd; piped_wc_cmd]) 1
           piped_wc_cmd "K" "V" eq_refl).
Defined.

(** C7, witness: [ls] with two more items, one of them [None]. *)
Lemma call_spec_witness :
  exists st',
    Command_call (os := demo_os) 0 [AOther "-l -a"; ANone] (demo_state [ls_cmd]) = (Ok 1, st') /\
    store st' = [ls_cmd; mkCommand ["ls"; "-l"; "-a"] None ∅ None].
Proof.
  destruct (call_spec (os := demo_os) (demo_state [ls_cmd]) 0 ls_cmd
              [AOther "-l -a"; ANone] ["-l"; "-a"]
              (allocated (demo_state [ls_cmd]) (mkCommand [] None ∅ None))
              eq_refl eq_refl) as (st' & E & Hstore & _).
  exists st'. split; [exact E | exact Hstore].
Defined.

(** C8, witness: two definitions of [open:], a comment between them. *)
Lemma detect_duplication_spec_witness :
  detect_duplication ["open: 1"; "# note"; " open: 3 "; "close: 2"]
  = (["open: 1"; "# note"], SysExit (redefined "open:" 2 0)).
Proof.
  exact (proj1 (proj2 (detect_duplication_spec
                         ["open: 1"; "# note"; " open: 3 "; "close: 2"])
                  ["open: 1"; "# note"] "open: 3" ["close: 2"] "open:" 0
                  eq_refl ltac:(vm_compute; repeat constructor; set_solver)
                  eq_refl eq_refl)).
Defined.

(** C8, counterexample: on the lines [open: 1], [close: 2], [open: 3] the
    script exits with the message, and two lines are on standard output
    by then. *)
Lemma detect_duplication_counterexample :
  detect_duplication ["open: 1"; "close: 2"; "open: 3"]
  = (["open: 1"; "close: 2"],
     SysExit "syscall open: redefined in L2(previous definition in L0)").
Proof. vm_compute. reflexivity. Qed.

(** C9, witness: [true] and [false] in the foreground and [echo] and [ls]
    for their output, each pair in parallel with the second command called
    first: the results come in the order of the commands. *)
Lemma parallel_results_in_order_witness :
  (let o := ParallelCommands_fg (os := demo_os) (mkParallel [0; 1]) (fun _ => 1) true false
              (demo_state [true_cmd; false_cmd]) in
   po_result o = Ok [Some 0%Z; Some 1%Z] /\
   log_index <$> po_log o = [1; 0] /\
   NoDup (log_index <$> po_log o)) /\
  (let o := ParallelCommands_stdout (os := demo_os) (mkParallel [0; 1]) (fun _ => 1)
              (demo_state [echo_cmd; ls_cmd]) in
   po_result o = Ok [Some "echo abcd"; Some "ls"] /\
   log_index <$> po_log o = [1; 0] /\
   NoDup (log_index <$> po_log o)).
Proof.
  split.
  - split; [vm_compute; reflexivity |]. split; [vm_compute; reflexivity |].
    exact (proj1 (proj2 (proj1 (parallel_results_in_order (os := demo_os)
             (mkParallel [0; 1]) (fun _ => 1) (demo_state [true_cmd; false_cmd]))
             true false))).
  - split; [vm_compute; reflexivity |]. split; [vm_compute; reflexivity |].
    exact (proj1 (proj2 (proj2 (parallel_results_in_order (os := demo_os)
             (mkParallel [0; 1]) (fun _ => 1) (demo_state [echo_cmd; ls_cmd]))))).
Defined.

(** * Further properties *)

(** ** The duplicate-definition filter, on every input *)

Lemma scan_total data :
  forall i last_seen,
    (forall e, snd (scan i data last_seen) <> Uncaught e) /\
    exists n, fst (scan i data last_seen) = take n data.
Proof.
  induction data as [| l rest IH]; intros i last_seen; simpl.
  - split; [discriminate |]. now exists 0.
  - destruct (is_definition l) eqn:Hdef.
    + destruct (definition_has_key l Hdef) as (key & tl & ->).
      destruct (last_seen !! key).
      * split; [discriminate |]. now exists 0.
      * destruct (IH (S i) (<[key := i]> last_seen)) as (Hsafe & n & Hn).
        destruct (scan (S i) rest (<[key := i]> last_seen)) as [out e]. simpl in *.
        split; [assumption |]. exists (S n). simpl. now rewrite Hn.
    + destruct (IH (S i) last_seen) as (Hsafe & n & Hn).
      destruct (scan (S i) rest last_seen) as [out e]. simpl in *.
      split; [assumption |]. exists (S n). simpl. now rewrite Hn.
Qed.

(** X1: whatever the input, the script never dies of an uncaught error
    (taking the first token of a defining line cannot fail), and what it
    has printed is a prefix of the stripped lines. *)
Theorem detect_duplication_safe (stdin_lines : list string) :
  (forall e, snd (detect_duplication stdin_lines) <> Uncaught e) /\
  exists n, fst (detect_duplication stdin_lines) = take n (List.map strip stdin_lines).
Proof. unfold detect_duplication. apply scan_total. Qed.

Lemma find_key_none key data i :
  find_key key data i = None -> Some key ∉ List.map key_of data.
Proof.
  revert i. induction data as [| l rest IH]; intros i; simpl.
  - intros _ H. now apply elem_of_nil in H.
  - destruct (decide (key_of l = Some key)) as [E | Hne]; [discriminate |].
    intros H Hin. apply elem_of_cons in Hin. destruct Hin as [Hin | Hin]; [congruence |].
    now apply (IH _ H).
Qed.

Lemma defined_keys_snoc data l :
  defined_keys (data ++ [l])
  = defined_keys data ++ match key_of l with Some k => [Some k] | None => [] end.
Proof.
  unfold defined_keys. rewrite List.map_app, List.filter_app. simpl.
  now destruct (key_of l).
Qed.

Lemma defined_keys_elem data k :
  Some k ∈ defined_keys data -> Some k ∈ List.map key_of data.
Proof.
  unfold defined_keys. intros H. apply list_elem_of_In, List.filter_In in H.
  now apply list_elem_of_In.
Qed.

(** Either no key is defined twice, or there is a first line that defines
    a key again. *)
Lemma first_duplicate data :
  NoDup (defined_keys data) \/
  exists pre l post key j,
    data = pre ++ l :: post /\ NoDup (defined_keys pre) /\
    key_of l = Some key /\ find_key key pre 0 = Some j.
Proof.
  induction data as [| x d IH] using rev_ind.
  - left. constructor.
  - destruct IH as [Hnd | (pre & l & post & key & j & -> & Hpre & Hl & Hj)].
    + destruct (key_of x) as [k |] eqn:Hx.
      * destruct (find_key k d 0) as [j |] eqn:Hj.
        -- right. exists d, x, [], k, j. auto.
        -- left. rewrite defined_keys_snoc, Hx. apply NoDup_app.
           split; [assumption |]. split; [| apply NoDup_singleton].
           intros y Hy Hin. apply list_elem_of_singleton in Hin. subst y.
           now apply (find_key_none _ _ _ Hj), defined_keys_elem.
      * left. rewrite defined_keys_snoc, Hx. now rewrite app_nil_r.
    + right. exists pre, l, (post ++ [x]), key, j.
      split; [now rewrite <- List.app_assoc | auto].
Qed.

(** X2: the script ends normally exactly when no key is defined twice. *)
Theorem detect_duplication_zero_iff (stdin_lines : list string) :
  snd (detect_duplication stdin_lines) = ExitZero
  <-> NoDup (defined_keys (List.map strip stdin_lines)).
Proof.
  unfold detect_duplication. set (data := List.map strip stdin_lines). split.
  - intros Hzero. destruct (first_duplicate data)
      as [Hnd | (pre & l & post & key & j & E & Hpre & Hl & Hj)]; [assumption |].
    exfalso. destruct (scan_prefix pre [] ∅ (l :: post) records_empty Hpre) as (m & Hrec & Es).
    rewrite E in Hzero. simpl in Es. rewrite Es in Hzero. simpl in Hzero.
    unfold key_of in Hl. destruct (is_definition l); [| discriminate].
    destruct (split l) as [| k tl]; [discriminate |]. simpl in Hl. injection Hl as ->.
    pose proof (Hrec key) as Hm. simpl in Hm. rewrite Hm, Hj in Hzero. discriminate.
  - intros Hnd. destruct (scan_prefix data [] ∅ [] records_empty Hnd) as (m & _ & E).
    rewrite app_nil_r in E. simpl in E. now rewrite E.
Qed.

(** ** Printing a command and reading it back *)

Lemma fmt_arg_render arg : fmt_arg arg = render (token_item arg).
Proof. unfold fmt_arg, token_item. now destruct (has_space arg). Qed.

Lemma content_token_item arg : content (token_item arg) = arg.
Proof. unfold token_item. now destruct (has_space arg). Qed.

Lemma no_space_word_chars arg :
  has_space arg = false -> all_chars span_char arg = true -> all_chars word_char arg = true.
Proof.
  induction arg as [| c arg IH]; simpl; [reflexivity |].
  intros Hs Hq. apply orb_false_elim in Hs. destruct Hs as [Hc Hs].
  apply andb_prop in Hq. destruct Hq as [Hcq Hq].
  rewrite (IH Hs Hq), andb_true_r.
  unfold span_char in Hcq. apply andb_prop in Hcq. destruct Hcq as [Hquote _].
  unfold word_char, is_newline. rewrite Hquote.
  destruct (Ascii.eqb_spec c delimiter) as [-> | _]; [discriminate |].
  destruct (Ascii.eqb_spec c LF) as [-> | _]; [discriminate |].
  destruct (Ascii.eqb_spec c CR) as [-> | _]; [discriminate |].
  reflexivity.
Qed.

Lemma token_item_ok arg : token_ok arg = true -> item_ok (token_item arg) = true.
Proof.
  unfold token_ok, token_item. intros H. apply andb_prop in H. destruct H as [Hq Hfit].
  destruct (has_space arg) eqn:Hs; simpl.
  - now rewrite Hq, Hfit.
  - now rewrite (no_space_word_chars arg Hs Hq), Hfit.
Qed.

Lemma token_items_ok l :
  forallb token_ok l = true -> forallb item_ok (List.map token_item l) = true.
Proof.
  induction l as [| a l IH]; simpl; [reflexivity |].
  intros H. apply andb_prop in H. destruct H as [Ha Hl].
  now rewrite (token_item_ok a Ha), IH.
Qed.

(** X3: the text [str] prints for a command without upstream, read back
    by the tokenizer, is the token vector of the command (a token with
    white space was printed between quotes and comes back whole), as long
    as no token holds a double quote or a line feed; empty tokens are
    lost. *)
Theorem str_roundtrip (o : CommandObj) :
  forallb token_ok (args o) = true ->
  shell_like_split (Command_str [o]) = Ok (List.filter nonempty (args o)).
Proof.
  intros Hok.
  assert (E : Command_str [o] = lines_text [List.map token_item (args o)]).
  { simpl. unfold lines_text, line_text, join. simpl. f_equal.
    rewrite List.map_map. apply List.map_ext. intros a. apply fmt_arg_render. }
  rewrite E, shell_like_split_lines.
  - simpl. rewrite app_nil_r, List.map_map. do 2 f_equal.
    rewrite <- (List.map_id (args o)) at 2. apply List.map_ext, content_token_item.
  - simpl. rewrite andb_true_r. now apply token_items_ok.
Qed.

Lemma in_quoted_overflow w :
  forall fs f,
    all_chars span_char w = true ->
    (N.of_nat (String.length f) <= field_limit)%N ->
    (field_limit < N.of_nat (String.length f + String.length w))%N ->
    process_chars (mkReader IN_QUOTED_FIELD fs f) w
    = Raise (CsvError "field larger than field limit (131072)").
Proof.
  induction w as [| c w IH]; intros fs f Hw Hf Hlen.
  - simpl in Hlen. lia.
  - simpl in Hw. apply andb_prop in Hw. destruct Hw as [Hc Hw].
    unfold span_char in Hc. apply andb_prop in Hc. destruct Hc as [Hq _].
    apply negb_true_iff in Hq.
    rewrite process_chars_cons. unfold parse_process_char. simpl. rewrite Hq.
    unfold parse_add_char. simpl field.
    destruct (N.ltb_spec (N.of_nat (String.length f)) field_limit) as [Hlt | Hge];
      [| reflexivity].
    cbn [bindR]. apply IH; [assumption | |].
    + unfold snoc. rewrite string_length_app. simpl. lia.
    + unfold snoc. rewrite string_length_app. simpl in *. lia.
Qed.

(** X4: a quoted string whose text is free of double quotes and line
    feeds, printed by its [__str__] and read by the tokenizer, is the one
    token it wraps, white space included (no token when it wraps the empty
    text), as long as the text has no more than the 131072 characters of
    the reader's field limit; a longer text makes the reader raise its
    error on the field limit. *)
Theorem quoted_str_roundtrip (value : string) :
  all_chars span_char value = true ->
  shell_like_split (QuotedString_str value)
  = if (N.of_nat (String.length value) <=? 131072)%N
    then Ok (List.filter nonempty [value])
    else Raise (CsvError "field larger than field limit (131072)").
Proof.
  intros Hq. change 131072%N with field_limit.
  destruct (N.leb_spec (N.of_nat (String.length value)) field_limit) as [Hfit | Hlong].
  - change (QuotedString_str value) with (lines_text [[Span value]]).
    rewrite shell_like_split_lines; [reflexivity |].
    simpl. unfold fits. rewrite Hq. apply N.leb_le in Hfit. now rewrite Hfit.
  - assert (Hnolf : all_chars not_lf (QuotedString_str value) = true).
    { unfold QuotedString_str. cbn [all_chars]. rewrite all_chars_app.
      rewrite (all_chars_impl span_char not_lf value); [reflexivity | | assumption].
      intros c Hc. unfold span_char in Hc. apply andb_prop in Hc. exact (proj2 Hc). }
    unfold shell_like_split, csv_reader, StringIO.
    rewrite (StringIO_from_single _ EmptyString Hnolf).
    unfold QuotedString_str. cbn [String.append nonempty reader_records].
    unfold process_line. rewrite process_chars_cons.
    change (parse_process_char parse_reset (Some DQUOTE))
      with (Ok (mkReader IN_QUOTED_FIELD [] EmptyString)).
    cbn [bindR]. rewrite process_chars_app.
    rewrite in_quoted_overflow; [reflexivity | assumption | |].
    + simpl. unfold field_limit. lia.
    + simpl. lia.
Qed.

(** ** Carriage returns *)

Lemma cr_like_lf r fs :
  parse_process_char r (Some LF) = Ok (mkReader EAT_CRNL fs EmptyString) ->
  parse_process_char r (Some CR) = Ok (mkReader EAT_CRNL fs EmptyString).
Proof.
  destruct r as [s fs' f]. destruct s; unfold parse_process_char; simpl; try (intros H; exact H).
  unfold parse_add_char. simpl.
  destruct (N.of_nat (String.length f) <? field_limit)%N; discriminate.
Qed.

Lemma eat_crnl_raises fs c rest :
  is_newline c = false ->
  process_chars (mkReader EAT_CRNL fs EmptyString) (String c rest)
  = Raise (CsvError "new-line character seen in unquoted field - do you need to open the file in universal-newline mode?").
Proof. intros Hc. rewrite process_chars_cons. unfold parse_process_char. simpl. now rewrite Hc. Qed.

Lemma reset_cr_raises c rest :
  is_newline c = false ->
  process_chars parse_reset (String CR (String c rest))
  = Raise (CsvError "new-line character seen in unquoted field - do you need to open the file in universal-newline mode?").
Proof.
  intros Hc. rewrite process_chars_cons.
  change (parse_process_char parse_reset (Some CR))
    with (Ok (mkReader EAT_CRNL [] EmptyString)).
  cbn [bindR]. now apply eat_crnl_raises.
Qed.

Lemma cr_prefix_raises (items : list Item) (c : ascii) (rest : string) :
  forallb item_ok items = true ->
  is_newline c = false ->
  process_chars parse_reset (line_text items ++ String CR (String c rest))
  = Raise (CsvError "new-line character seen in unquoted field - do you need to open the file in universal-newline mode?").
Proof.
  intros Hok Hc. rewrite process_chars_app.
  destruct (string_dec (line_text items) EmptyString) as [E | Hne].
  - rewrite E. change (process_chars parse_reset EmptyString) with (Ok parse_reset).
    cbn [bindR]. now rewrite reset_cr_raises.
  - destruct (items_end_record items Hok Hne) as (r1 & E & _ & Hlf).
    unfold line_text, join in *. rewrite E. cbn [bindR].
    rewrite process_chars_cons, (cr_like_lf _ _ Hlf). cbn [bindR].
    now rewrite eat_crnl_raises.
Qed.

Lemma StringIO_from_head s :
  forall cur, nonempty cur = true ->
  exists tail more, StringIO_from cur s = (cur ++ tail)%string :: more.
Proof.
  induction s as [| c s IH]; intros cur Hcur.
  - exists EmptyString, []. simpl. now rewrite Hcur, string_app_nil_r.
  - cbn [StringIO_from]. destruct (Ascii.eqb c LF).
    + exists (String c EmptyString). eexists. reflexivity.
    + destruct (IH (snoc cur c)) as (tail & more & E).
      { unfold snoc. destruct cur; reflexivity. }
      exists (String c tail), more. rewrite E. unfold snoc.
      now rewrite string_app_assoc.
Qed.

(** X5: a carriage return after the fragments of a line, followed by
    anything but a line end, makes the tokenizer fail with the reader's
    error, whatever comes after: such a text cannot be an argument of a
    command. *)
Theorem carriage_return_raises (items : list Item) (c : ascii) (rest : string) :
  forallb item_ok items = true ->
  is_newline c = false ->
  shell_like_split (line_text items ++ String CR (String c rest))
  = Raise (CsvError "new-line character seen in unquoted field - do you need to open the file in universal-newline mode?").
Proof.
  intros Hok Hc.
  assert (Hnolf : all_chars not_lf (line_text items ++ String CR (String c EmptyString)) = true).
  { rewrite all_chars_app, (line_no_lf items Hok). simpl. rewrite andb_true_r.
    unfold is_newline in Hc. apply orb_false_elim in Hc. unfold not_lf.
    now rewrite (proj1 Hc). }
  assert (Esplit : (line_text items ++ String CR (String c rest)
                    = (line_text items ++ String CR (String c EmptyString)) ++ rest)%string).
  { now rewrite string_app_assoc. }
  unfold shell_like_split, csv_reader, StringIO.
  rewrite Esplit, (StringIO_from_no_lf _ EmptyString rest Hnolf).
  destruct (StringIO_from_head rest
              (EmptyString ++ (line_text items ++ String CR (String c EmptyString))))
    as (tail & more & E).
  { simpl. destruct (line_text items); reflexivity. }
  rewrite E. cbn [reader_records]. unfold process_line.
  replace ((EmptyString ++ (line_text items ++ String CR (String c EmptyString))) ++ tail)%string
    with (line_text items ++ String CR (String c tail))%string
    by (simpl; now rewrite string_app_assoc).
  now rewrite (cr_prefix_raises items c tail Hok Hc).
Qed.

(** ** [strip_xssi] *)

Lemma startswith_str_split prefix s :
  startswith_str prefix s = true ->
  s = (prefix ++ drop_chars (String.length prefix) s)%string.
Proof.
  revert s. induction prefix as [| a p IH]; intros s; simpl; [reflexivity |].
  destruct s as [| b s]; [discriminate |]. intros H.
  apply andb_prop in H. destruct H as [Hab Hp].
  apply Ascii.eqb_eq in Hab. subst b. simpl. f_equal. now apply IH.
Qed.

Lemma startswith_str_app prefix s : startswith_str prefix (prefix ++ s) = true.
Proof.
  induction prefix as [| a p IH]; simpl; [reflexivity |]. now rewrite Ascii.eqb_refl.
Qed.

(** X6: [strip_xssi] passes exactly on the responses that begin with the
    five characters of the prefix, and returns what follows them. *)
Theorem strip_xssi_spec (response body : string) :
  strip_xssi response = Passed body <-> response = (XSSI_PREFIX ++ body)%string.
Proof.
  unfold strip_xssi. split.
  - destruct (startswith_str XSSI_PREFIX response) eqn:H; [| discriminate].
    intros [= <-]. exact (startswith_str_split XSSI_PREFIX response H).
  - intros ->. rewrite startswith_str_app. reflexivity.
Qed.

(** ** [batched] at the edges *)

Lemma cdiv_neg a b :
  (b < 0)%Z -> (0 <= a)%Z ->
  (- a <= cdiv a b <= 0)%Z /\ ((- b <= a)%Z -> (cdiv a b <= -1)%Z).
Proof.
  intros Hb Ha. unfold cdiv.
  pose proof (Z.div_mod (- a) b ltac:(lia)) as E.
  pose proof (Z.mod_neg_bound (- a) b Hb) as B.
  split; [split |]; nia.
Qed.

(** X7: with a batch size of zero or less [batched] never yields a batch:
    iterating it divides by zero or ends at once, so [foreach] then builds
    no command for any of its arguments. *)
Theorem batched_nonpositive {T} (source : list T) (max_batch_size : Z) :
  (max_batch_size <= 0)%Z ->
  list_of (batched source max_batch_size) = Raise ZeroDivisionError \/
  list_of (batched source max_batch_size) = Ok [].
Proof.
  intros Hm. unfold list_of, batched.
  set (n := Z.of_nat (length source)).
  assert (Hn : (0 <= n)%Z) by (subst n; lia).
  assert (Hbig : (0 < 2 ^ 1075)%Z) by (apply Z.pow_pos_nonneg; lia).
  destruct (Z.eq_dec max_batch_size 0%Z) as [-> | Hm0]; [now left |].
  rewrite (ceil_div_exact n max_batch_size Hm0) by (right; nia). cbn [bindR].
  destruct (cdiv_neg n max_batch_size ltac:(lia) Hn) as ((Hk1 & Hk2) & _).
  set (k := cdiv n max_batch_size) in *.
  destruct (Z.eq_dec k 0%Z) as [-> | Hk0]; [now left |].
  rewrite (ceil_div_exact n k Hk0) by (right; nia). cbn [bindR].
  destruct (cdiv_neg n k ltac:(lia) Hn) as (_ & Hb).
  specialize (Hb ltac:(lia)).
  set (b := cdiv n k) in *.
  unfold range0.
  destruct (Z.eqb_spec b 0) as [| Hb0]; [lia |]. cbn [bindR].
  destruct (cdiv_neg n b ltac:(lia) Hn) as ((_ & Hc) & _).
  right. replace (Z.to_nat (cdiv n b)) with 0%nat by lia. reflexivity.
Qed.

Lemma singletons {T} (l : list T) :
  List.map (fun i => take 1 (drop i l)) (seq 0 (length l)) = List.map (fun x => [x]) l.
Proof.
  induction l as [| x l IH]; [reflexivity |].
  cbn [length seq List.map]. rewrite <- seq_shift, List.map_map. simpl. f_equal.
  exact IH.
Qed.

(** X8: on a list of [n] elements, [n] below 2^53, with a batch size of
    one (the default of [foreach]) every element is a batch of its own, in
    order; with a batch size of at least [n] and less than [n * 2^1075],
    where the floating-point quotient rounds to zero, there is one batch,
    the whole list. *)
Theorem batched_extremes {T} (source : list T) (max_batch_size : Z) :
  source <> [] ->
  (Z.of_nat (length source) < 2 ^ 53)%Z ->
  list_of (batched source 1) = Ok (List.map (fun x => [x]) source) /\
  ((Z.of_nat (length source) <= max_batch_size)%Z ->
   (max_batch_size < Z.of_nat (length source) * 2 ^ 1075)%Z ->
   list_of (batched source max_batch_size) = Ok [source]).
Proof.
  intros Hne _.
  assert (Hn : (1 <= Z.of_nat (length source))%Z)
    by (destruct source; [congruence | simpl; lia]).
  assert (Hbig : (1 < 2 ^ 1075)%Z) by (apply Z.pow_gt_1; lia).
  split.
  - destruct (batched_unfold source 1 Hne ltac:(lia) ltac:(nia)) as (Hk & Hb & Hkb & E).
    rewrite E.
    set (k := cdiv (Z.of_nat (length source)) 1) in *.
    set (b := cdiv (Z.of_nat (length source)) k) in *.
    assert (b = 1%Z) as -> by lia.
    assert (Z.to_nat k = length source) as -> by lia.
    f_equal. rewrite <- singletons. apply List.map_ext. intros i.
    now rewrite Nat.mul_1_r.
  - intros Hm Hsmall.
    destruct (batched_unfold source max_batch_size Hne ltac:(lia) Hsmall)
      as (Hk & Hb & Hkb & E).
    rewrite E.
    pose proof (cdiv_spec (Z.of_nat (length source)) max_batch_size ltac:(lia)) as Hs.
    set (k := cdiv (Z.of_nat (length source)) max_batch_size) in *.
    assert (k = 1%Z) as -> by nia.
    pose proof (cdiv_spec (Z.of_nat (length source)) 1 ltac:(lia)) as Hs1.
    set (b := cdiv (Z.of_nat (length source)) 1) in *.
    assert (Z.to_nat b = length source) as -> by lia.
    simpl. rewrite drop_0. now rewrite take_ge by lia.
Qed.

(** X9: on a list of [n] elements, [n] below 2^53, and for a batch size
    from one up to (not including) [n * 2^1075], the batches are balanced:
    the last batch is shorter than the others by fewer elements than there
    are batches. *)
Theorem batched_last_batch {T} (source : list T) (max_batch_size : Z) :
  source <> [] -> (1 <= max_batch_size)%Z ->
  let n := Z.of_nat (length source) in
  (n < 2 ^ 53)%Z ->
  (max_batch_size < n * 2 ^ 1075)%Z ->
  let batch_count := cdiv n max_batch_size in
  let batch_size := cdiv n batch_count in
  exists batches final,
    list_of (batched source max_batch_size) = Ok batches /\
    last batches = Some final /\
    (batch_size - batch_count < Z.of_nat (length final) <= batch_size)%Z.
Proof.
  intros Hne Hm n _ Hsmall batch_count batch_size.
  destruct (batched_unfold source max_batch_size Hne Hm Hsmall) as (Hk & Hb & Hkb & E).
  fold n in Hk, Hb, Hkb, E. fold batch_count in Hk, Hb, Hkb, E.
  fold batch_size in Hb, Hkb, E.
  pose proof (cdiv_spec n batch_count ltac:(lia)) as Hs. fold batch_size in Hs.
  eexists. exists (take (Z.to_nat batch_size)
                     (drop ((Z.to_nat batch_count - 1) * Z.to_nat batch_size) source)).
  split; [exact E |]. split.
  - rewrite last_lookup, length_map, length_seq, list_lookup_fmap.
    rewrite lookup_seq_lt by lia. simpl. do 3 f_equal. lia.
  - rewrite length_take, length_drop. subst n. nia.
Qed.

Section MoreProperties.
Context `{os : OS}.

(** ** Tokenizing lists *)

Lemma mapM_app {A B} (f : A -> M B) (a b : list A) st :
  mapM f (a ++ b) st
  = (xs <~ mapM f a ;; ys <~ mapM f b ;; ret (xs ++ ys)) st.
Proof.
  revert st. induction a as [| x a IH]; intros st; simpl; unfold bind, ret in *.
  - destruct (mapM f b st) as [[ys | e] st1]; reflexivity.
  - destruct (f x st) as [[y | e] st1]; [| reflexivity].
    rewrite IH.
    destruct (mapM f a st1) as [[xs | e] st2]; [| reflexivity].
    destruct (mapM f b st2) as [[ys | e] st3]; reflexivity.
Qed.

(** X10: tokenizing a list of items in two parts, one after the other,
    and joining the tokens is tokenizing the whole list, nested commands
    and failures included. *)
Theorem parse_cmd_app (a b : list Arg) st :
  parse_cmd (a ++ b) st
  = (ta <~ parse_cmd a ;; tb <~ parse_cmd b ;; ret (ta ++ tb)) st.
Proof.
  unfold parse_cmd. unfold bind at 1. rewrite mapM_app. unfold bind, ret.
  destruct (mapM parse_cmd_args a st) as [[xs | e] st1]; [| reflexivity].
  destruct (mapM parse_cmd_args b st1) as [[ys | e] st2]; [| reflexivity].
  now rewrite concat_app.
Qed.

Lemma parse_static (items : list Arg) st :
  no_commands items = true -> parse_cmd items st = (tokens_of items, st).
Proof.
  unfold parse_cmd, bind, ret.
  induction items as [| a rest IH]; intros Hpure; [reflexivity |].
  simpl in Hpure. apply andb_prop in Hpure. destruct Hpure as [Ha Hrest].
  specialize (IH Hrest). simpl. unfold bind, ret.
  assert (Ea : parse_cmd_args a st = (static_tokens a, st)) by (destruct a; try reflexivity;
    discriminate).
  rewrite Ea. destruct (static_tokens a) as [t | e]; simpl; [| reflexivity].
  destruct (mapM parse_cmd_args rest st) as [[ts | e] st1]; simpl in *.
  - injection IH as <- <-. reflexivity.
  - injection IH as <- <-. reflexivity.
Qed.

(** X11: a command constructed from nothing, or from nothing but [None]
    and [False], has no token and no executable: no file is looked for and
    the construction cannot fail, whatever the file system holds. *)
Theorem Command_new_sentinels (items : list Arg) stdin env st :
  only_sentinels items = true ->
  Command_new items stdin env st
  = (Ok (length (store st)), allocated st (mkCommand [] stdin env None)).
Proof.
  intros H.
  assert (Hpure : no_commands items = true /\ tokens_of items = Ok []).
  { induction items as [| a rest IH]; [split; reflexivity |].
    simpl in H. apply andb_prop in H. destruct H as [Ha Hrest].
    destruct (IH Hrest) as [Hp Ht]. simpl. rewrite Hp, Ht.
    destruct a; try discriminate; split; reflexivity. }
  destruct Hpure as [Hp Ht]. unfold Command_new, bind.
  rewrite (parse_static items st Hp), Ht. reflexivity.
Qed.

(** ** Pipe chains are acyclic *)

Lemma ordered_snoc (st : list CommandObj) (o : CommandObj) :
  ordered st ->
  (forall up, stdin_cmd o = Some up -> up < length st) ->
  ordered (st ++ [o]).
Proof.
  intros Hord Ho r o' up Hr Hup.
  apply lookup_snoc_Some in Hr. destruct Hr as [[Hlt Hr] | [-> ->]].
  - eapply Hord; eassumption.
  - now apply Ho.
Qed.

Lemma pipe_chain_S n (st : list CommandObj) r :
  pipe_chain (S n) st r
  = match st !! r with
    | None => None
    | Some o =>
        match stdin_cmd o with
        | None => Some [o]
        | Some up =>
            match pipe_chain n st up with
            | Some ups => Some (o :: ups)
            | None => None
            end
        end
    end.
Proof. reflexivity. Qed.

Lemma pipe_chain_ordered (st : list CommandObj) :
  ordered st ->
  forall n r, r < n -> r < length st ->
  exists o ups, st !! r = Some o /\ pipe_chain n st r = Some (o :: ups).
Proof.
  intros Hord. induction n as [| n IH]; intros r Hn Hr; [lia |].
  destruct (lookup_lt_is_Some_2 _ _ Hr) as [o Ho].
  exists o. rewrite pipe_chain_S. unfold ref in *. rewrite Ho.
  destruct (stdin_cmd o) as [up |] eqn:Hup.
  - pose proof (Hord r o up Ho Hup) as Hlt.
    destruct (IH up ltac:(lia) ltac:(lia)) as (o' & ups & _ & E).
    rewrite E. now exists (o' :: ups).
  - now exists [].
Qed.

Lemma setobj_keeps_stdin st o f r res st' :
  (forall x, stdin_cmd (f x) = stdin_cmd x) ->
  ordered (store st ++ [o]) ->
  setobj r f (mkState (store st ++ [o]) (world st) (printed st)) = (res, st') ->
  ordered (store st').
Proof.
  intros Hf Hord. unfold setobj. simpl.
  destruct ((store st ++ [o]) !! r) as [x |] eqn:Hx; intros [= <- <-]; simpl; [| assumption].
  intros r' o' up Hr' Hup.
  destruct (decide (r = r')) as [<- | Hne].
  - rewrite list_lookup_insert_eq in Hr' by (eapply lookup_lt_Some; eassumption).
    injection Hr' as <-. rewrite Hf in Hup. eapply Hord; eassumption.
  - rewrite list_lookup_insert_ne in Hr' by assumption. eapply Hord; eassumption.
Qed.

Lemma getobj_state r st res st' : getobj r st = (res, st') -> st' = st.
Proof. unfold getobj. destruct (store st !! r); now intros [= _ <-]. Qed.

Lemma ordered_allocated st o :
  ordered (store st) ->
  (forall up, stdin_cmd o = Some up -> up < length (store st)) ->
  ordered (store (allocated st o)).
Proof. intros. now apply ordered_snoc. Qed.

Lemma Command_new_ordered items stdin env st :
  ordered (store st) ->
  (forall up, stdin = Some up -> up < length (store st)) ->
  ordered (store (snd (Command_new items stdin env st))).
Proof.
  intros Hord Hup. pose proof (Command_new_store items stdin env st) as H.
  destruct (Command_new items stdin env st) as [[c | e] st']; simpl.
  - destruct H as (_ & toks & exe & ->). now apply ordered_snoc.
  - now rewrite H.
Qed.

Lemma Command_pipe_ordered self items st :
  ordered (store st) -> self < length (store st) ->
  ordered (store (snd (Command_pipe self items st))).
Proof.
  intros Hord Hself.
  assert (Hup : forall up, Some self = Some up -> up < length (store st))
    by (intros up [= <-]; assumption).
  assert (G : ordered (store (snd ((me <~ getobj self ;;
                                    Command_new items (Some self) (env_vars me)) st)))).
  { unfold bind. destruct (getobj self st) as [[me | e] s1] eqn:E;
      apply getobj_state in E; subst s1; [| assumption].
    now apply Command_new_ordered. }
  unfold Command_pipe.
  destruct items as [| a rest]; [exact G |].
  destruct a as [? | ? | target | | | ?]; try exact G.
  destruct rest as [| b rest]; [| exact G].
  unfold bind. rewrite Command_new_empty.
  destruct (getobj target (allocated st _)) as [[t | e] s1] eqn:Et;
    apply getobj_state in Et; subst s1; simpl snd; [| now apply ordered_allocated].
  rewrite setobj_new.
  destruct (getobj self (allocated st _)) as [[me | e] s1] eqn:Es;
    apply getobj_state in Es; subst s1; simpl snd; [| now apply ordered_allocated].
  rewrite setobj_new. simpl snd. now apply ordered_allocated.
Qed.

Lemma Command_env_ordered self key value st :
  ordered (store st) -> ordered (store (snd (Command_env self key value st))).
Proof.
  intros Hord.
  assert (Hup : forall up, @None ref = Some up -> up < length (store st)) by discriminate.
  unfold Command_env, bind. rewrite Command_new_empty.
  destruct (getobj self (allocated st _)) as [[me | e] s1] eqn:Es;
    apply getobj_state in Es; subst s1; simpl snd; [| now apply ordered_allocated].
  rewrite setobj_new.
  destruct (getobj self (allocated st _)) as [[me' | e] s1] eqn:Es;
    apply getobj_state in Es; subst s1; simpl snd; [| now apply ordered_allocated].
  rewrite setobj_new. simpl snd. now apply ordered_allocated.
Qed.

Lemma Command_call_ordered self items st :
  ordered (store st) -> ordered (store (snd (Command_call self items st))).
Proof.
  intros Hord.
  assert (Hup : forall up, @None ref = Some up -> up < length (store st)) by discriminate.
  unfold Command_call, bind. rewrite Command_new_empty.
  destruct (getobj self (allocated st _)) as [[me | e] s1] eqn:Es;
    apply getobj_state in Es; subst s1; simpl snd; [| now apply ordered_allocated].
  destruct (parse_cmd items (allocated st _)) as [[toks | e] s1] eqn:Ep;
    rewrite (keeps_allocated _ _ _ _ _ (keeps_parse_cmd items) Ep).
  2:{ simpl snd. now apply (ordered_allocated (mkState (store st) (world s1) (printed s1))). }
  clear Ep.
  remember (mkState (store st) (world s1) (printed s1)) as st2 eqn:Hst2.
  assert (Hlen : length (store st) = length (store st2)) by now subst st2.
  assert (Hord2 : ordered (store st2)) by now subst st2.
  rewrite Hlen. clear Hst2.
  rewrite setobj_new.
  destruct (getobj self (allocated st2 _)) as [[me' | e] s2] eqn:Es;
    apply getobj_state in Es; subst s2; simpl snd;
    [| apply ordered_allocated; [assumption | discriminate]].
  rewrite setobj_new. simpl snd. apply ordered_allocated; [assumption | discriminate].
Qed.

(** X13: the store stays ordered under everything that makes commands:
    construction with an existing upstream, [pipe], [env] and currying
    leave every upstream reference naming an earlier object, so no pipe
    chain they build is cyclic. *)
Theorem api_keeps_ordered self items key value st :
  ordered (store st) -> self < length (store st) ->
  ordered (store (snd (Command_new items (Some self) ∅ st))) /\
  ordered (store (snd (Command_pipe self items st))) /\
  ordered (store (snd (Command_env self key value st))) /\
  ordered (store (snd (Command_call self items st))).
Proof.
  intros Hord Hself. repeat split.
  - apply Command_new_ordered; [assumption |]. now intros up [= <-].
  - now apply Command_pipe_ordered.
  - now apply Command_env_ordered.
  - now apply Command_call_ordered.
Qed.

(** ** The description of a pipe *)

Lemma pipe_chain_ext n (st extra : list CommandObj) r chain :
  pipe_chain n st r = Some chain -> pipe_chain n (st ++ extra) r = Some chain.
Proof.
  revert r chain. induction n as [| n IH]; intros r chain; [discriminate |].
  rewrite !pipe_chain_S. unfold ref in *.
  destruct (st !! r) as [o |] eqn:Ho; [| discriminate].
  rewrite (lookup_app_l_Some _ _ _ _ Ho).
  destruct (stdin_cmd o) as [up |]; [| trivial].
  destruct (pipe_chain n st up) as [ups |] eqn:E; [| discriminate].
  now rewrite (IH _ _ E).
Qed.

Lemma pipe_chain_nonempty n (st : list CommandObj) r : pipe_chain n st r <> Some [].
Proof.
  destruct n as [| n]; [discriminate |]. rewrite pipe_chain_S.
  destruct (st !! r) as [o |]; [| discriminate].
  destruct (stdin_cmd o); [| discriminate].
  destruct (pipe_chain n st r0); discriminate.
Qed.

Lemma Command_str_cons (p o : CommandObj) (ups : list CommandObj) :
  Command_str (p :: o :: ups)
  = ((Command_str (o :: ups) ++ " | ") ++ join " " (List.map fmt_arg (args p)))%string.
Proof. reflexivity. Qed.

Lemma Command_pipe_command st r t robj tobj :
  store st !! r = Some robj -> store st !! t = Some tobj ->
  Command_pipe r [ACommand t] st
  = (Ok (length (store st)),
     allocated st (mkCommand (args tobj) (Some r) (env_vars robj) None)).
Proof.
  intros Hr Ht. unfold Command_pipe, bind. rewrite Command_new_empty.
  rewrite (getobj_old _ _ _ _ Ht), setobj_new, (getobj_old _ _ _ _ Hr), setobj_new.
  reflexivity.
Qed.

(** X14: the description of [r.pipe(t)] is the description of [r], the
    bar between spaces, and the tokens of [t], each between quotes if it
    holds white space. *)
Theorem pipe_str st r t robj tobj chain :
  store st !! r = Some robj -> store st !! t = Some tobj ->
  get_chain r st = (Ok chain, st) ->
  exists st' piped,
    Command_pipe r [ACommand t] st = (Ok (length (store st)), st') /\
    get_chain (length (store st)) st' = (Ok (piped :: chain), st') /\
    Command_str (piped :: chain)
    = (Command_str chain ++ " | " ++ join " " (List.map fmt_arg (args tobj)))%string.
Proof.
  intros Hr Ht Hchain. unfold get_chain in Hchain.
  destruct (pipe_chain (length (store st)) (store st) r) as [ch |] eqn:E; [| discriminate].
  injection Hchain as ->.
  eexists _, _. split; [exact (Command_pipe_command st r t robj tobj Hr Ht) |]. split.
  - unfold get_chain, allocated. simpl. rewrite length_app. simpl.
    rewrite Nat.add_1_r, pipe_chain_S. unfold ref in *.
    rewrite list_lookup_middle by reflexivity. simpl.
    now rewrite (pipe_chain_ext _ _ _ _ _ E).
  - destruct chain as [| o ups]; [exfalso; exact (pipe_chain_nonempty _ _ _ E) |].
    rewrite Command_str_cons. now rewrite string_app_assoc.
Qed.

(** ** Currying, again and in batches *)

Lemma call_static st c obj items toks :
  store st !! c = Some obj ->
  no_commands items = true -> tokens_of items = Ok toks ->
  Command_call c items st
  = (Ok (length (store st)),
     allocated st (mkCommand (args obj ++ toks) None (env_vars obj) None)).
Proof.
  intros Hc Hpure Htoks. unfold Command_call, bind. rewrite Command_new_empty.
  rewrite (getobj_old _ _ _ _ Hc), (parse_static _ _ Hpure), Htoks.
  rewrite setobj_new, (getobj_old _ _ _ _ Hc), setobj_new. reflexivity.
Qed.

Lemma tokens_of_app a b ta tb :
  tokens_of a = Ok ta -> tokens_of b = Ok tb -> tokens_of (a ++ b) = Ok (ta ++ tb).
Proof.
  revert ta. induction a as [| x a IH]; intros ta; simpl.
  - now intros [= <-].
  - destruct (static_tokens x) as [t | e]; simpl; [| discriminate].
    destruct (tokens_of a) as [ts | e]; simpl; [| discriminate].
    intros [= <-] Hb. rewrite (IH ts eq_refl Hb). simpl. now rewrite List.app_assoc.
Qed.

Lemma no_commands_app a b :
  no_commands a = true -> no_commands b = true -> no_commands (a ++ b) = true.
Proof. unfold no_commands. intros Ha Hb. now rewrite forallb_app, Ha, Hb. Qed.

(** X15: currying twice is currying once with all the items: [c(a)(b)]
    and [c(a, b)] are new commands with the same tokens and overrides
    (for items that are not themselves commands). *)
Theorem call_compose st c obj a b ta tb :
  store st !! c = Some obj ->
  no_commands a = true -> no_commands b = true ->
  tokens_of a = Ok ta -> tokens_of b = Ok tb ->
  let both := mkCommand (args obj ++ ta ++ tb) None (env_vars obj) None in
  Command_call c (a ++ b) st = (Ok (length (store st)), allocated st both) /\
  exists once,
    (c1 <~ Command_call c a ;; Command_call c1 b) st
    = (Ok (S (length (store st))), allocated (allocated st once) both).
Proof.
  intros Hc Ha Hb Hta Htb both. split.
  - apply call_static; [assumption | now apply no_commands_app | now apply tokens_of_app].
  - exists (mkCommand (args obj ++ ta) None (env_vars obj) None).
    unfold bind. rewrite (call_static st c obj a ta Hc Ha Hta). cbv beta iota.
    assert (H1 : store (allocated st (mkCommand (args obj ++ ta) None (env_vars obj) None))
                 !! length (store st)
                 = Some (mkCommand (args obj ++ ta) None (env_vars obj) None))
      by (simpl; now apply list_lookup_middle).
    rewrite (call_static _ _ _ b tb H1 Hb Htb).
    unfold both. simpl. rewrite length_app, Nat.add_1_r, <- List.app_assoc. reflexivity.
Qed.

Lemma slice_subseteq {T} (l : list T) lo hi : slice l lo hi ⊆ l.
Proof.
  unfold slice. etransitivity; [apply subseteq_take | apply subseteq_drop].
Qed.

Lemma batched_elements {T} (source : list T) m batches batch x :
  list_of (batched source m) = Ok batches ->
  batch ∈ batches -> x ∈ batch -> x ∈ source.
Proof.
  unfold list_of, batched.
  destruct (ceil_div _ m) as [k | e]; simpl; [| discriminate].
  destruct (ceil_div _ k) as [b | e]; simpl; [| discriminate].
  destruct (range0 _ b) as [indices | e]; simpl; [| discriminate].
  intros [= <-] Hb Hx. apply list_elem_of_In, in_map_iff in Hb.
  destruct Hb as (i & <- & _). eapply slice_subseteq, Hx.
Qed.

Lemma mapM_call_static self obj batches tss :
  Forall2 (fun batch ts => no_commands batch = true /\ tokens_of batch = Ok ts) batches tss ->
  forall st,
    store st !! self = Some obj ->
    mapM (fun batch => Command_call self batch) batches st
    = (Ok (seq (length (store st)) (length batches)),
       mkState (store st
                ++ List.map (fun ts => mkCommand (args obj ++ ts) None (env_vars obj) None) tss)
               (world st) (printed st)).
Proof.
  induction 1 as [| batch ts batches tss [Hpure Htoks] _ IH]; intros st Hself.
  - simpl. unfold ret. rewrite app_nil_r. now destruct st.
  - cbn [mapM]. unfold bind. rewrite (call_static st self obj batch ts Hself Hpure Htoks).
    cbv beta iota.
    rewrite (IH (allocated st _) (lookup_app_l_Some _ _ _ _ Hself)).
    unfold ret, allocated. simpl. rewrite length_app, Nat.add_1_r, <- List.app_assoc.
    reflexivity.
Qed.

Lemma tokens_of_concat batches tss :
  Forall2 (fun batch ts => no_commands batch = true /\ tokens_of batch = Ok ts) batches tss ->
  tokens_of (List.concat batches) = Ok (List.concat tss).
Proof.
  induction 1 as [| batch ts batches tss [_ Htoks] _ IH]; [reflexivity |].
  simpl. now apply tokens_of_app.
Qed.

(** X16: [foreach] on arguments that are not commands builds one command
    per batch, in order: each has the tokens of the base command followed
    by the tokens of its batch, and the overrides of the base command;
    the base command and every other object stay as they are; and for a
    batch size of at least one the tokens added, batch after batch, are
    the tokens of all the arguments. *)
Theorem foreach_static st self obj arguments batch_size batches tss :
  store st !! self = Some obj ->
  list_of (batched arguments batch_size) = Ok batches ->
  Forall2 (fun batch ts => no_commands batch = true /\ tokens_of batch = Ok ts) batches tss ->
  Command_foreach self arguments batch_size st
  = (Ok (seq (length (store st)) (length batches)),
     mkState (store st
              ++ List.map (fun ts => mkCommand (args obj ++ ts) None (env_vars obj) None) tss)
             (world st) (printed st)) /\
  (arguments <> [] -> (1 <= batch_size)%Z ->
   tokens_of arguments = Ok (List.concat tss)).
Proof.
  intros Hself Hb Htoks. split.
  - unfold Command_foreach, bind, lift. rewrite Hb.
    now apply mapM_call_static.
  - intros Hne Hm.
    assert (Hn : (0 < Z.of_nat (length arguments))%Z)
      by (destruct arguments; [congruence | simpl; lia]).
    destruct (Z.lt_ge_cases batch_size (Z.of_nat (length arguments) * 2 ^ 1075))
      as [Hsmall | Hhuge].
    + destruct (batched_unfold arguments batch_size Hne Hm Hsmall) as (Hk & Hsz & Hkb & E).
      rewrite E in Hb. injection Hb as <-.
      pose proof (tokens_of_concat _ _ Htoks) as Hc.
      rewrite concat_chunks, take_ge in Hc by nia. exact Hc.
    + unfold list_of, batched in Hb.
      rewrite (ceil_div_underflow _ _ Hn Hhuge) in Hb. discriminate Hb.
Qed.

(** ** Running *)

(** X17: [success] never raises for a non-zero exit code: once the
    process has returned, it answers whether the code was zero, and it
    prints nothing of the captured output. *)
Theorem success_spec self st chain result st1 :
  fg_run self true st = (Ok (chain, result), st1) ->
  Command_success self st = (Ok (cp_returncode result =? 0)%Z, st1).
Proof.
  intros Hrun. unfold Command_success, Command_fg, bind. rewrite Hrun.
  destruct (cp_returncode result =? 0)%Z eqn:E; simpl.
  - now rewrite E.
  - now rewrite E.
Qed.

(** X18: [check] in [run] changes one thing: a run that returns a result
    without [check] returns the same result with it when the exit code is
    zero, and otherwise raises the error that carries the code, the token
    vector and the captured output; [stdout] without [check] is the
    captured output stripped of surrounding white space. *)
Theorem run_check self err st o result st1 :
  store st !! self = Some o ->
  Command_run self false err st = (Ok result, st1) ->
  Command_run self true err st
  = ((if (cp_returncode result =? 0)%Z then Ok result
      else Raise (CalledProcessError (cp_returncode result) (inr (args o)) (cp_stdout result))),
     st1) /\
  (err = INHERIT ->
   Command_stdout self false st
   = (match cp_stdout result with
      | Some t => Ok (strip t)
      | None => Raise AttributeError
      end, st1)).
Proof.
  intros Hself Hrun.
  assert (Hobj : getobj self st = (Ok o, st)) by (unfold getobj; now rewrite Hself).
  split.
  - revert Hrun. unfold Command_run, bind.
    destruct (get_chain self st) as [[chain | e] s0] eqn:Ec; [| discriminate].
    unfold get_chain in Ec.
    destruct (pipe_chain _ _ self); [| discriminate]. injection Ec as -> <-.
    rewrite Hobj.
    destruct (debug_print chain st) as [[u | e] s2]; [| discriminate].
    destruct (stdin_stream chain s2) as [[i | e] s3]; [| discriminate].
    unfold get_world.
    destruct (with_world _ s3) as [[res | e] s4]; [| discriminate].
    simpl. intros [= -> ->].
    destruct (cp_returncode result =? 0)%Z; reflexivity.
  - intros ->. unfold Command_stdout, bind. rewrite Hrun.
    destruct (cp_stdout result); reflexivity.
Qed.

Lemma Command_env_new st c obj key value :
  store st !! c = Some obj ->
  Command_env c key value st
  = (Ok (length (store st)),
     allocated st (mkCommand (args obj) None (<[key := value]> (env_vars obj)) None)).
Proof.
  intros Hc. unfold Command_env, bind. rewrite Command_new_empty.
  rewrite (getobj_old _ _ _ _ Hc), setobj_new, (getobj_old _ _ _ _ Hc), setobj_new.
  reflexivity.
Qed.

(** X19: a process started from [c.env(key, value)] sees [value] at
    [key], whatever the inherited environment holds there, and at every
    other variable what a process started from [c] sees. *)
Theorem env_reaches_process st c obj key value :
  store st !! c = Some obj ->
  exists st' o',
    Command_env c key value st = (Ok (length (store st)), st') /\
    store st' !! length (store st) = Some o' /\
    forall out err stdin w,
      rq_env (request o' out err stdin w) !! key = Some value /\
      forall other, other <> key ->
        rq_env (request o' out err stdin w) !! other
        = rq_env (request obj out err stdin w) !! other.
Proof.
  intros Hc. eexists _, _. split; [exact (Command_env_new st c obj key value Hc) |].
  split; [simpl; now apply list_lookup_middle |].
  intros out err stdin w. simpl. split.
  - apply lookup_union_Some_l, lookup_insert_eq.
  - intros other Hne. now rewrite !lookup_union, lookup_insert_ne.
Qed.

(** ** Failures in the pool *)

(** X20: when the parallel [fg] or [stdout] raises, the exception is one
    that a submitted command raised when the pool called it; and once a
    command has raised, the commands that follow it in its chunk (the
    commands are cut into chunks of [chunksize] consecutive ones, about a
    quarter of their number per worker) are never called. *)
Theorem parallel_failure (self : ParallelCommands) (choose : nat -> nat) (st : State) :
  let chunksize := map_chunksize (length (commands self)) ThreadPool_processes in
  (forall quiet check,
      let o := ParallelCommands_fg self choose quiet check st in
      (forall e,
          po_result o = Raise e ->
          exists i command s,
            commands self !! i = Some command /\
            (i, s, Raise e) ∈ po_log o /\
            fst (Command_fg command quiet check s) = Raise e) /\
      (forall i s e i',
          (i, s, Raise e) ∈ po_log o -> i < i' ->
          (i' / chunksize)%nat = (i / chunksize)%nat ->
          i' ∉ log_index <$> po_log o)) /\
  (let o := ParallelCommands_stdout self choose st in
   (forall e,
       po_result o = Raise e ->
       exists i command s,
         commands self !! i = Some command /\
         (i, s, Raise e) ∈ po_log o /\
         fst (Command_stdout command true s) = Raise e) /\
   (forall i s e i',
       (i, s, Raise e) ∈ po_log o -> i < i' ->
       (i' / chunksize)%nat = (i / chunksize)%nat ->
       i' ∉ log_index <$> po_log o)).
Proof.
  assert (G : forall B (f : ref -> M B),
             let o := pool_map f choose (commands self) st in
             (forall e,
                 po_result o = Raise e ->
                 exists i command s,
                   commands self !! i = Some command /\
                   (i, s, Raise e) ∈ po_log o /\ fst (f command s) = Raise e) /\
             (forall i s e i',
                 (i, s, Raise e) ∈ po_log o -> i < i' ->
                 (i' / map_chunksize (length (commands self)) ThreadPool_processes)%nat
                 = (i / map_chunksize (length (commands self)) ThreadPool_processes)%nat ->
                 i' ∉ log_index <$> po_log o)).
  { intros B f o. split.
    - intros e He.
      destruct (pool_map_in_order f choose (commands self) st) as (_ & _ & H).
      fold o in H. rewrite He in H. exact H.
    - intros i s e i'. apply pool_map_skips. }
  intros chunksize. split; [intros quiet check |]; apply G.
Qed.

End MoreProperties.

(** * The further properties at work *)

Lemma demo_ordered : ordered [echo_cmd; piped_wc_cmd].
Proof.
  intros r o up Hr Hup. destruct r as [| [| r]]; simpl in Hr; try discriminate;
    injection Hr as <-; simpl in Hup; [discriminate |]. injection Hup as <-. lia.
Qed.

Lemma str_roundtrip_witness :
  shell_like_split (Command_str [mkCommand ["grep"; "-e"; "foo bar"; tabbed] None ∅ None])
  = Ok ["grep"; "-e"; "foo bar"; tabbed].
Proof.
  exact (str_roundtrip (mkCommand ["grep"; "-e"; "foo bar"; tabbed] None ∅ None) eq_refl).
Defined.

Lemma quoted_str_roundtrip_witness :
  shell_like_split (QuotedString_str "Content-Type: application/json")
  = Ok ["Content-Type: application/json"].
Proof. exact (quoted_str_roundtrip "Content-Type: application/json" eq_refl). Defined.

Lemma carriage_return_raises_witness :
  shell_like_split (line_text [Plain "a"] ++ String CR (String "b" (String LF "c")))
  = Raise (CsvError "new-line character seen in unquoted field - do you need to open the file in universal-newline mode?").
Proof.
  exact (carriage_return_raises [Plain "a"] "b"%char (String LF "c") eq_refl eq_refl).
Defined.

Lemma batched_nonpositive_witness :
  list_of (batched [1; 2; 3; 4; 5]%Z (-2)) = Raise ZeroDivisionError \/
  list_of (batched [1; 2; 3; 4; 5]%Z (-2)) = Ok [].
Proof. apply (batched_nonpositive [1; 2; 3; 4; 5]%Z (-2)). lia. Defined.

Lemma batched_extremes_witness :
  list_of (batched ["a"; "b"; "c"] 1) = Ok [["a"]; ["b"]; ["c"]] /\
  list_of (batched ["a"; "b"; "c"] 7) = Ok [["a"; "b"; "c"]].
Proof.
  destruct (batched_extremes ["a"; "b"; "c"] 7 ltac:(discriminate)
              ltac:(vm_compute; reflexivity)) as [H1 H2].
  split; [exact H1 | apply H2; vm_compute; [discriminate | reflexivity]].
Defined.

Lemma batched_last_batch_witness :
  exists batches final,
    list_of (batched [1; 2; 3; 4; 5; 6; 7; 8; 9; 10]%Z 4) = Ok batches /\
    last batches = Some final /\
    (1 < Z.of_nat (length final) <= 4)%Z.
Proof.
  exact (batched_last_batch [1; 2; 3; 4; 5; 6; 7; 8; 9; 10]%Z 4
           ltac:(discriminate) ltac:(lia) ltac:(vm_compute; reflexivity)
           ltac:(vm_compute; reflexivity)).
Defined.

Lemma Command_new_sentinels_witness :
  Command_new (os := demo_os) [ANone; AFalse] None ∅ (demo_state [])
  = (Ok 0, allocated (demo_state []) (mkCommand [] None ∅ None)).
Proof.
  exact (Command_new_sentinels (os := demo_os) [ANone; AFalse] None ∅ (demo_state []) eq_refl).
Defined.

Lemma api_keeps_ordered_witness :
  ordered (store (snd (Command_pipe (os := demo_os) 1 [AOther "sort -u"]
                         (demo_state [echo_cmd; piped_wc_cmd])))).
Proof.
  apply (api_keeps_ordered (os := demo_os) 1 [AOther "sort -u"] "K" "V"
           (demo_state [echo_cmd; piped_wc_cmd]) demo_ordered).
  simpl. lia.
Defined.

Lemma pipe_str_witness :
  exists st' piped,
    Command_pipe (os := demo_os) 0 [ACommand 1] (demo_state [echo_cmd; wc_cmd]) = (Ok 2, st') /\
    get_chain 2 st' = (Ok [piped; echo_cmd], st') /\
    Command_str [piped; echo_cmd] = "echo abcd | wc".
Proof.
  exact (pipe_str (os := demo_os) (demo_state [echo_cmd; wc_cmd]) 0 1 echo_cmd wc_cmd
           [echo_cmd] eq_refl eq_refl eq_refl).
Defined.

Lemma call_compose_witness :
  Command_call (os := demo_os) 0 ([AOther "-l"] ++ [APath "/tmp/a b"]) (demo_state [ls_cmd])
  = (Ok 1, allocated (demo_state [ls_cmd]) (mkCommand ["ls"; "-l"; "/tmp/a b"] None ∅ None)).
Proof.
  exact (proj1 (call_compose (os := demo_os) (demo_state [ls_cmd]) 0 ls_cmd
                  [AOther "-l"] [APath "/tmp/a b"] ["-l"] ["/tmp/a b"]
                  eq_refl eq_refl eq_refl eq_refl eq_refl)).
Defined.

Lemma foreach_static_witness :
  Command_foreach (os := demo_os) 0 [AOther "1"; AOther "2"; AOther "3"] 2 (demo_state [echo_cmd])
  = (Ok [1; 2],
     mkState (os := demo_os)
       [echo_cmd;
        mkCommand ["echo"; "abcd"; "1"; "2"] None {["LANG" := "C"]} None;
        mkCommand ["echo"; "abcd"; "3"] None {["LANG" := "C"]} None] tt []).
Proof.
  exact (proj1 (foreach_static (os := demo_os) (demo_state [echo_cmd]) 0 echo_cmd
                  [AOther "1"; AOther "2"; AOther "3"] 2
                  [[AOther "1"; AOther "2"]; [AOther "3"]] [["1"; "2"]; ["3"]]
                  eq_refl eq_refl
                  ltac:(repeat constructor))).
Defined.

Lemma success_spec_witness :
  Command_success (os := demo_os) 0 (demo_state [false_cmd])
  = (Ok false, demo_state [false_cmd]).
Proof.
  exact (success_spec (os := demo_os) 0 (demo_state [false_cmd]) [false_cmd]
           (mkCompleted 1 (Some "false") None) (demo_state [false_cmd]) eq_refl).
Defined.

Lemma run_check_witness :
  Command_run (os := demo_os) 0 true PIPE (demo_state [false_cmd])
  = (Raise (CalledProcessError 1 (inr ["false"]) (Some "false")), demo_state [false_cmd]).
Proof.
  exact (proj1 (run_check (os := demo_os) 0 PIPE (demo_state [false_cmd]) false_cmd
                  (mkCompleted 1 (Some "false") (Some "")) (demo_state [false_cmd])
                  eq_refl eq_refl)).
Defined.

Lemma env_reaches_process_witness :
  exists st' o',
    Command_env (os := demo_os) 0 "LANG" "en" (demo_state [echo_cmd]) = (Ok 1, st') /\
    store st' !! 1 = Some o' /\
    rq_env (request (os := demo_os) o' PIPE PIPE None tt) !! "LANG" = Some "en".
Proof.
  destruct (env_reaches_process (os := demo_os) (demo_state [echo_cmd]) 0 echo_cmd
              "LANG" "en" eq_refl) as (st' & o' & E & Hl & H).
  exists st', o'. split; [exact E |]. split; [exact Hl |].
  exact (proj1 (H PIPE PIPE None tt)).
Defined.

(** X20, witness: nine commands on two processors run in chunks of two;
    the first command fails and the second is never called. *)
Lemma parallel_failure_witness :
  let o := ParallelCommands_fg (os := demo_os) (mkParallel (seq 0 9)) (fun _ => 0%nat)
             true true (demo_state (false_cmd :: repeat true_cmd 8)) in
  po_result o = Raise (CalledProcessError 1 (inl "false") (Some "false")) /\
  log_index <$> po_log o = [0; 2; 3; 4; 5; 6; 7; 8] /\
  1 ∉ log_index <$> po_log o.
Proof.
  split; [vm_compute; reflexivity |]. split; [vm_compute; reflexivity |].
  apply (proj2 (proj1 (parallel_failure (os := demo_os) (mkParallel (seq 0 9))
                         (fun _ => 0%nat) (demo_state (false_cmd :: repeat true_cmd 8)))
                  true true)
           0 (demo_state (false_cmd :: repeat true_cmd 8))
           (CalledProcessError 1 (inl "false") (Some "false")) 1).
  - apply (list_elem_of_lookup_2 _ 0). vm_compute. reflexivity.
  - lia.
  - vm_compute. reflexivity.
Defined.

(** ** A word longer than the field limit *)

Lemma in_field_overflow w :
  forall fs f,
    all_chars word_char w = true ->
    (N.of_nat (String.length f) <= field_limit)%N ->
    (field_limit < N.of_nat (String.length f + String.length w))%N ->
    process_chars (mkReader IN_FIELD fs f) w
    = Raise (CsvError "field larger than field limit (131072)").
Proof.
  induction w as [| c w IH]; intros fs f Hw Hf Hlen.
  - simpl in Hlen. lia.
  - simpl in Hw. apply andb_prop in Hw. destruct Hw as [Hc Hw].
    destruct (word_char_inv c Hc) as (Hd & Hq & Hn).
    rewrite process_chars_cons. unfold parse_process_char. simpl. rewrite Hn, Hd.
    unfold parse_add_char. simpl field.
    destruct (N.ltb_spec (N.of_nat (String.length f)) field_limit) as [Hlt | Hge];
      [| reflexivity].
    cbn [bindR]. apply IH; [assumption | |].
    + unfold snoc. rewrite string_length_app. simpl. lia.
    + unfold snoc. rewrite string_length_app. simpl in *. lia.
Qed.

(** X21: a bare word longer than the reader's field limit of 131072
    characters cannot be tokenized: the reader raises its error.  (Wrapped
    in a quoted string the same text is one token, since that path does
    not go through the reader.) *)
Theorem long_word_raises (w : string) :
  all_chars word_char w = true ->
  (field_limit < N.of_nat (String.length w))%N ->
  shell_like_split w = Raise (CsvError "field larger than field limit (131072)").
Proof.
  intros Hw Hlen.
  destruct w as [| c w]; [simpl in Hlen; unfold field_limit in Hlen; lia |].
  assert (Hnolf : all_chars not_lf (String c w) = true).
  { apply (all_chars_impl word_char); [| assumption].
    intros a Ha. destruct (word_char_inv a Ha) as (_ & _ & Hn).
    unfold is_newline in Hn. apply orb_false_elim in Hn. unfold not_lf. now rewrite (proj1 Hn). }
  unfold shell_like_split, csv_reader, StringIO.
  rewrite (StringIO_from_single _ EmptyString Hnolf). cbn [String.append nonempty].
  cbn [reader_records]. unfold process_line.
  simpl in Hw. apply andb_prop in Hw. destruct Hw as [Hc Hw].
  destruct (word_char_inv c Hc) as (Hd & Hq & Hn).
  rewrite process_chars_cons.
  assert (E : parse_process_char parse_reset (Some c)
              = Ok (mkReader IN_FIELD [] (String c EmptyString))).
  { unfold parse_process_char, parse_reset. simpl. now rewrite Hn, Hq, Hd. }
  rewrite E. cbn [bindR].
  rewrite in_field_overflow; [reflexivity | assumption | |].
  - simpl. unfold field_limit. lia.
  - simpl in *. lia.
Qed.

(** ** Lines of output *)

Lemma rstrip_last s :
  forall c, last_char (rstrip s) = Some c -> isspace c = false.
Proof.
  induction s as [| a s IH]; intros c; simpl; [discriminate |].
  destruct (rstrip s) as [| b t] eqn:E.
  - destruct (isspace a) eqn:Ha; simpl; [discriminate |]. now intros [= <-].
  - simpl. exact (IH c).
Qed.

Lemma splitlines_from_nonempty s cur :
  nonempty cur = true \/ s <> EmptyString -> splitlines_from cur s <> [].
Proof.
  revert cur. induction s as [| c s IH]; intros cur H; simpl.
  - destruct H as [H | H]; [now rewrite H | congruence].
  - destruct (Ascii.eqb c CR).
    + destruct s as [| c' s']; [discriminate |]. destruct (Ascii.eqb c' LF); discriminate.
    + destruct (is_line_boundary c); [discriminate |].
      apply IH. left. unfold snoc. destruct cur; reflexivity.
Qed.

Lemma join_cons_nonempty sep a l :
  l <> [] -> join sep (a :: l) = (a ++ sep ++ join sep l)%string.
Proof. destruct l; [congruence | reflexivity]. Qed.

Lemma splitlines_from_join s :
  forall cur,
    breaks_only_lf s = true ->
    last_char s <> Some LF ->
    join (String LF EmptyString) (splitlines_from cur s) = (cur ++ s)%string.
Proof.
  induction s as [| c s IH]; intros cur Hb Hlast.
  - simpl. rewrite string_app_nil_r. destruct cur; reflexivity.
  - simpl in Hb. apply andb_prop in Hb. destruct Hb as [Hc Hb].
    assert (Hlast' : s <> EmptyString -> last_char s <> Some LF).
    { intros Hne. destruct s; [congruence | exact Hlast]. }
    cbn [splitlines_from].
    destruct (Ascii.eqb_spec c LF) as [-> | Hne].
    + change (Ascii.eqb LF CR) with false. change (is_line_boundary LF) with true.
      cbv iota.
      assert (Hs : s <> EmptyString) by (intros ->; now apply Hlast).
      rewrite join_cons_nonempty by (apply splitlines_from_nonempty; now right).
      rewrite (IH EmptyString Hb (Hlast' Hs)). reflexivity.
    + simpl in Hc. apply negb_true_iff in Hc.
      assert (Hcr : Ascii.eqb c CR = false).
      { destruct (Ascii.eqb_spec c CR) as [-> | _]; [discriminate | reflexivity]. }
      rewrite Hcr, Hc.
      destruct (string_dec s EmptyString) as [-> | Hs].
      * simpl. unfold snoc. destruct cur; reflexivity.
      * rewrite (IH (snoc cur c) Hb (Hlast' Hs)). unfold snoc.
        now rewrite string_app_assoc.
Qed.

(** The lines of a stripped text, joined by line feeds, are the text
    again, when its only line ends are line feeds: what [lines] returns
    loses nothing of what [stdout] returns. *)
Theorem lines_roundtrip (raw : string) :
  breaks_only_lf (strip raw) = true ->
  join (String LF EmptyString) (splitlines (strip raw)) = strip raw.
Proof.
  intros Hb. unfold splitlines. rewrite splitlines_from_join; [reflexivity | assumption |].
  intros Hl. unfold strip in Hl. now pose proof (rstrip_last _ _ Hl).
Qed.

Lemma lines_roundtrip_witness :
  join (String LF EmptyString)
       (splitlines (strip ("Cargo.toml" ++ String LF ("src/main.rs" ++ String LF EmptyString))))
  = ("Cargo.toml" ++ String LF "src/main.rs")%string.
Proof.
  exact (lines_roundtrip ("Cargo.toml" ++ String LF ("src/main.rs" ++ String LF EmptyString))
           eq_refl).
Defined.

Lemma long_word_raises_witness :
  shell_like_split (string_of_list_ascii (repeat "a"%char (N.to_nat 131073)))
  = Raise (CsvError "field larger than field limit (131072)").
Proof.
  apply long_word_raises; vm_compute; reflexivity.
Defined.

Section Output.
Context `{os : OS}.

Lemma Command_stdout_stripped self check st out st1 :
  Command_stdout self check st = (Ok out, st1) -> exists raw, out = strip raw.
Proof.
  unfold Command_stdout, bind.
  destruct (Command_run self check INHERIT st) as [[result | e] s1]; [| discriminate].
  destruct (cp_stdout result) as [t |]; [| discriminate].
  intros [= <- _]. now exists t.
Qed.

(** X22: [lines] returns the lines of what [stdout] returns, and joined
    by line feeds they are that text again when its only line ends are
    line feeds. *)
Theorem lines_of_stdout self st out st1 :
  Command_stdout self true st = (Ok out, st1) ->
  Command_lines self st = (Ok (splitlines out), st1) /\
  (breaks_only_lf out = true ->
   join (String LF EmptyString) (splitlines out) = out).
Proof.
  intros Hout. split.
  - unfold Command_lines, bind. now rewrite Hout.
  - destruct (Command_stdout_stripped _ _ _ _ _ Hout) as [raw ->]. apply lines_roundtrip.
Qed.

(** ** What is printed *)

Hypothesis not_verbose : verbose = false.

Lemma printed_bind {A B} (m : M A) (k : A -> M B) :
  keeps_printed m -> (forall a, keeps_printed (k a)) -> keeps_printed (bind m k).
Proof.
  intros Hm Hk st. unfold bind. specialize (Hm st).
  destruct (m st) as [[a | e] st1]; simpl in *; [| assumption].
  now rewrite Hk.
Qed.

Lemma printed_debug_print chain : keeps_printed (debug_print chain).
Proof. intros st. unfold debug_print. now rewrite not_verbose. Qed.

Lemma printed_with_world {A} (f : World -> Result A * World) : keeps_printed (with_world f).
Proof. intros st. unfold with_world. now destruct (f (world st)). Qed.

Lemma printed_stream_chain chain err : keeps_printed (stream_chain chain err).
Proof.
  revert err. induction chain as [| o ups IH]; intros err; [intros st; reflexivity |].
  cbn [stream_chain].
  apply printed_bind; [apply printed_debug_print | intros _].
  apply printed_bind; [apply IH | intros stdin].
  apply printed_bind; [intros st; reflexivity | intros w].
  apply printed_bind; [apply printed_with_world | intros p]. intros st. reflexivity.
Qed.

Lemma printed_fg_run self quiet : keeps_printed (fg_run self quiet).
Proof.
  unfold fg_run.
  apply printed_bind.
  { intros st. unfold get_chain. now destruct (pipe_chain _ _ self). }
  intros chain. apply printed_bind.
  { intros st. unfold getobj. now destruct (store st !! self). }
  intros o. apply printed_bind; [apply printed_debug_print | intros _].
  apply printed_bind.
  { unfold stdin_stream. destruct chain; [intros st; reflexivity | apply printed_stream_chain]. }
  intros stdin. apply printed_bind; [intros st; reflexivity | intros w].
  apply printed_bind; [apply printed_with_world | intros result]. intros st. reflexivity.
Qed.

(** X23: without the verbose flags, the only thing [fg] ever prints is
    the captured output of a quiet, checked run that ended with a non-zero
    exit code; it prints it once, and only when it is not empty. *)
Theorem fg_prints self quiet check st :
  printed (snd (Command_fg self quiet check st))
  = printed st
    ++ match fst (fg_run self quiet st) with
       | Ok (_, result) =>
           match cp_stdout result with
           | Some out =>
               if negb (cp_returncode result =? 0)%Z && quiet && check && nonempty out
               then [out] else []
           | None => []
           end
       | Raise _ => []
       end.
Proof.
  unfold Command_fg, bind. pose proof (printed_fg_run self quiet st) as Hp.
  destruct (fg_run self quiet st) as [[[chain result] | e] st1]; simpl in *.
  2:{ now rewrite app_nil_r. }
  destruct (cp_returncode result =? 0)%Z; simpl.
  { rewrite Hp. destruct (cp_stdout result); now rewrite app_nil_r. }
  destruct (cp_stdout result) as [out |]; simpl.
  - destruct quiet, check, (nonempty out); simpl; rewrite ?Hp, ?app_nil_r; reflexivity.
  - rewrite !andb_false_r. destruct check; simpl; now rewrite Hp, app_nil_r.
Qed.

End Output.

Lemma lines_of_stdout_witness :
  Command_lines (os := demo_os) 0 (demo_state [echo_cmd])
  = (Ok ["echo abcd"], demo_state [echo_cmd]).
Proof.
  exact (proj1 (lines_of_stdout (os := demo_os) 0 (demo_state [echo_cmd]) "echo abcd"
                  (demo_state [echo_cmd]) eq_refl)).
Defined.

Lemma fg_prints_witness :
  printed (snd (Command_fg (os := demo_os) 0 true true (demo_state [false_cmd]))) = ["false"].
Proof.
  exact (fg_prints (os := demo_os) eq_refl 0 true true (demo_state [false_cmd])).
Defined.
